(** * Privacy-preserving country lookup over BGV: a shallow embedding

    Source: [cpp/BGV_world_country_db_lookup/BGV_world_country_db_lookup.cpp].

    The program talks to the homomorphic-encryption library only through
    [HeContext], [Encoder] and [CTile].  Those classes are not part of the
    program; they are represented by the interface [HeContext] below, whose
    laws are the contract of the ciphertext capability.  Everything else
    ([pow], [run], [read_csv], [stringToAscii], the start-up check of [main])
    is translated from the program text. *)

From Stdlib Require Import String Ascii.
From Stdlib Require Import ZArith List Lia Bool Znumtheory Permutation.
From Stdlib Require Import Zmod.
From Stdlib Require Import DecimalString DecimalZ DecimalPos.
Import ListNotations.
Local Open Scope Z_scope.

(** ** Machine integers *)

(** A C++ [int] is 32 bits wide; [wrap_int] is the two's-complement
    wrap-around of an [int] result. *)
Definition INT_MAX : Z := 2147483647.

Definition wrap_int (z : Z) : Z := (z + 2147483648) mod 4294967296 - 2147483648.

(** ** Slot vectors *)

Module Slots.

(** Slot-wise combination of two vectors. *)
Fixpoint slotwise (f : Z -> Z -> Z) (a b : list Z) : list Z :=
  match a, b with
  | x :: a', y :: b' => f x y :: slotwise f a' b'
  | _, _ => []
  end.

Section Modular.

Variable p : Z.   (* plaintext modulus *)
Variable n : nat. (* slot count *)

(** Modelled from the spec: [encodeEncrypt] "pads/truncates to slot count";
    the slot values are the residues modulo [p] in [[0, p)]. *)
Definition pad_trunc (v : list Z) : list Z :=
  firstn n v ++ repeat 0 (n - length v).

Definition encode (v : list Z) : list Z :=
  pad_trunc (map (fun x => x mod p) v).

(** Modelled from the spec: [add], [sub], [multiply], [negate], [square] are
    "slot-wise modular arithmetic". *)
Definition vadd : list Z -> list Z -> list Z := slotwise (fun x y => (x + y) mod p).
Definition vsub : list Z -> list Z -> list Z := slotwise (fun x y => (x - y) mod p).
Definition vmul : list Z -> list Z -> list Z := slotwise (fun x y => (x * y) mod p).
Definition vneg (a : list Z) : list Z := map (fun x => (- x) mod p) a.
Definition vsquare (a : list Z) : list Z := map (fun x => (x * x) mod p) a.

(** Modelled from the spec: [rotate(a, k)] is a "cyclic shift of the slot
    vector by k positions (negative = shift left); wraps around slot count":
    slot [i] of the result is slot [i - k] of the argument, cyclically. *)
Definition vrotate (k : Z) (a : list Z) : list Z :=
  map (fun i => nth (Z.to_nat ((Z.of_nat i - k) mod Z.of_nat (length a))) a 0)
      (seq 0 (length a)).

Definition in_range (x : Z) : Prop := 0 <= x < p.

(** Slot-wise power, the reference for [pow]. *)
Definition vpow (d : Z) (a : list Z) : list Z := map (fun x => x ^ d mod p) a.

(** Slot-wise equality indicator, the reference for the equality mask. *)
Definition indicator (a b : list Z) : list Z :=
  slotwise (fun x y => if x =? y then 1 else 0) a b.

End Modular.

(** [window v i m]: the [m] slots of [v] from slot [i] on, cyclically, all
    hold 1.  This is what a slot holds after the rounds of the
    rotate-and-multiply loop. *)
Definition window (v : list Z) (i m : nat) : bool :=
  forallb (fun t => nth ((i + t) mod length v) v 0 =? 1) (seq 0 m).

Definition all_ones (v : list Z) : bool := forallb (fun x => x =? 1) v.

Definition bit (x : Z) : Prop := x = 0 \/ x = 1.

(** The sum a non-empty sequence of vectors aggregates to. *)
Definition vsum (p : Z) (ds : list (list Z)) : list Z :=
  match ds with
  | [] => []
  | d0 :: others => fold_left (vadd p) others d0
  end.

End Slots.

Import Slots.

(** ** The ciphertext capability *)

(** Modelled from the spec: the classes [HeContext], [Encoder] and [CTile] of
    the encryption library are missing from the program text.  [Rand] is the
    randomness an encryption consumes; a ciphertext may depend on it, its
    decryption may not.  The laws say that every operation is exact modular
    arithmetic per slot, and that a decrypted vector has [slotCount] slots,
    "every element in [0, plaintextModulus)"; in-place operations of the
    library are functions from the old tile to the new one. *)
Class HeContext : Type := {
  CTile : Type;
  Rand : Type;
  slotCount : Z;
  modulus : Z;
  isModularArithmetic : bool;
  encodeEncrypt : Rand -> list Z -> CTile;
  decryptDecodeInt : CTile -> list Z;
  add : CTile -> CTile -> CTile;
  sub : CTile -> CTile -> CTile;
  multiply : CTile -> CTile -> CTile;
  negate : CTile -> CTile;
  square : CTile -> CTile;
  rotate : CTile -> Z -> CTile;

  slotCount_nonneg : 0 <= slotCount;
  modulus_gt_1 : 1 < modulus;
  dec_length : forall c, length (decryptDecodeInt c) = Z.to_nat slotCount;
  dec_range : forall c, Forall (in_range modulus) (decryptDecodeInt c);
  dec_encodeEncrypt : forall r v,
    decryptDecodeInt (encodeEncrypt r v) = encode modulus (Z.to_nat slotCount) v;
  dec_add : forall a b,
    decryptDecodeInt (add a b) = vadd modulus (decryptDecodeInt a) (decryptDecodeInt b);
  dec_sub : forall a b,
    decryptDecodeInt (sub a b) = vsub modulus (decryptDecodeInt a) (decryptDecodeInt b);
  dec_multiply : forall a b,
    decryptDecodeInt (multiply a b) = vmul modulus (decryptDecodeInt a) (decryptDecodeInt b);
  dec_negate : forall a,
    decryptDecodeInt (negate a) = vneg modulus (decryptDecodeInt a);
  dec_square : forall a,
    decryptDecodeInt (square a) = vsquare modulus (decryptDecodeInt a);
  dec_rotate : forall a k,
    decryptDecodeInt (rotate a k) = vrotate k (decryptDecodeInt a)
}.

(** ** Results of fallible code *)

(** A C++ call returns, throws, runs into undefined behaviour (an index out
    of range on [operator[]]) or does not come back. *)
Inductive outcome (A : Type) : Type :=
| Ok (a : A)
| Throw (msg : string)
| Undefined
| Diverges.

Arguments Ok {A} a.
Arguments Throw {A} msg.
Arguments Undefined {A}.
Arguments Diverges {A}.

(** ** Strings and streams *)

Definition nl : string := String (ascii_of_nat 10) EmptyString.

(** [char] is a signed 8-bit type on the platforms the program targets;
    [val[i]] widens to [int] with its sign. *)
Definition int_of_char (c : ascii) : Z :=
  let b := Z.of_nat (nat_of_ascii c) in
  if b <? 128 then b else b - 256.

(** [string::push_back] of an integer narrows it to a [char]. *)
Definition char_of_int (z : Z) : ascii := ascii_of_nat (Z.to_nat (z mod 256)).

(** [stringToAscii] (lines 388-396). *)
Definition stringToAscii (val : string) : list Z :=
  map int_of_char (list_ascii_of_string val).

(** An input stream over a string: [None] once [eofbit] is set, otherwise
    the characters not read yet. *)
Definition istream : Type := option string.

(** Characters up to the first [delim] (which is consumed), or up to the
    end of the input (which sets [eofbit]). *)
Fixpoint scan (delim : ascii) (s : string) : string * istream :=
  match s with
  | EmptyString => (EmptyString, None)
  | String c s' =>
      if Ascii.eqb c delim then (EmptyString, Some s')
      else let (entry, rest) := scan delim s' in (String c entry, rest)
  end.

(** [std::getline(ins, entry, delim)]: fails when the stream is not good or
    when nothing at all, not even a delimiter, could be extracted. *)
Definition getline (ins : istream) (delim : ascii) : option (string * istream) :=
  match ins with
  | None => None
  | Some EmptyString => None
  | Some s => Some (scan delim s)
  end.

(** [while (getline(ins, entry, delim)) row.push_back(entry);] *)
Fixpoint getline_loop (fuel : nat) (ins : istream) (delim : ascii) : list string :=
  match fuel with
  | O => []
  | S fuel' =>
      match getline ins delim with
      | None => []
      | Some (entry, ins') => entry :: getline_loop fuel' ins' delim
      end
  end.

(** Every successful [getline] consumes a character or ends the input, so
    one more round than there are characters is enough. *)
Definition getline_all (s : string) (delim : ascii) : list string :=
  getline_loop (S (String.length s)) (Some s) delim.

(** Strings the lookup is specified for: every character is a 7-bit code
    other than NUL, and the string is no longer than [n] slots. *)
Definition plain_char (c : ascii) : bool := 0 <? int_of_char c.

Definition plain (s : string) : bool :=
  forallb plain_char (list_ascii_of_string s).

Definition well_formed (n : nat) (s : string) : bool :=
  plain s && (String.length s <=? n)%nat.

Definition well_formed_db (n : nat) (db : list (string * string)) : bool :=
  forallb (fun kv => well_formed n (fst kv) && well_formed n (snd kv)) db.

(** [s] followed by NUL characters up to [n] characters. *)
Definition nul_padded (n : nat) (s : string) : string :=
  s ++ string_of_list_ascii (repeat zero (n - String.length s)).

(** ** read_csv (lines 350-384) *)

(** [row[0].size() > maxLen] compares a [size_t] with an [int]: the [int] is
    converted to the unsigned 64-bit type first. *)
Definition size_t_of_int (z : Z) : Z := z mod 18446744073709551616.

Definition too_long (s : string) (maxLen : Z) : bool :=
  Z.of_nat (String.length s) >? size_t_of_int maxLen.

(** The body of the outer loop for one [line]. *)
Definition read_row (line : string) (maxLen : Z) : outcome (string * string) :=
  let row := getline_all line ","%char in
  match nth_error row 0 with
  | None => Undefined
  | Some row0 =>
      if too_long row0 maxLen then
        Throw ("Country name " ++ row0 ++ " too long")
      else
        match nth_error row 1 with
        | None => Undefined
        | Some row1 =>
            if too_long row1 maxLen then
              Throw ("Capital name " ++ row1 ++ " too long")
            else Ok (row0, row1)
        end
  end.

Fixpoint read_rows (lines : list string) (maxLen : Z)
  (dataset : list (string * string)) : outcome (list (string * string)) :=
  match lines with
  | [] => Ok dataset
  | line :: rest =>
      match read_row line maxLen with
      | Ok kv => read_rows rest maxLen (dataset ++ [kv])
      | Throw msg => Throw msg
      | Undefined => Undefined
      | Diverges => Diverges
      end
  end.

(** [file] is the content of the file called [filename], [None] if it cannot
    be opened. *)
Definition read_csv (file : option string) (filename : string) (maxLen : Z)
  : outcome (list (string * string)) :=
  match file with
  | None =>
      Throw ("Error: This example failed trying to open the data file: "
             ++ filename ++ nl
             ++ "           Please check this file exists and try again.")
  | Some content => read_rows (getline_all content (ascii_of_nat 10)) maxLen []
  end.

(** The fields of a text, read off its characters without any stream: a
    field ends at a delimiter, and a delimiter at the very end starts no
    further field. *)
Fixpoint fields (delim : ascii) (s : string) : list string :=
  match s with
  | EmptyString => []
  | String c s' =>
      if Ascii.eqb c delim then EmptyString :: fields delim s'
      else
        match fields delim s' with
        | [] => [String c EmptyString]
        | f :: fs => String c f :: fs
        end
  end.

(** The pair a well-formed line stands for, and the lines and pairs of a
    file: all of them read off the text with [fields], not with the loops
    of [read_csv]. *)
Definition row_pair (line : string) : string * string :=
  let row := fields ","%char line in
  (nth 0 row EmptyString, nth 1 row EmptyString).

Definition file_lines (content : string) : list string :=
  fields (ascii_of_nat 10) content.

Definition file_pairs (content : string) : list (string * string) :=
  map row_pair (file_lines content).

Definition two_fields (line : string) : bool :=
  (2 <=? length (fields ","%char line))%nat.

(** A field is oversized when it has more than [maxLen] characters. *)
Definition oversized (maxLen : Z) (kv : string * string) : Prop :=
  Z.of_nat (String.length (fst kv)) > maxLen \/
  Z.of_nat (String.length (snd kv)) > maxLen.

(** ** main: the start-up check (line 115) *)

Definition setup_check (plaintextModulus : Z) : bool := plaintextModulus >=? 127.

(** ** The program over a ciphertext capability *)

Section Program.

Context {he : HeContext}.

(** [pow]: the loop of lines 149-163.  [y] is [None] while [yIsOne] holds
    (the tile [y] has not been assigned yet).  C++ [%] and [/] on [int]
    truncate towards zero: [Z.rem] and [Z.quot]. *)
Fixpoint pow_loop (fuel : nat) (ctile : CTile) (y : option CTile) (degree : Z)
  : option (CTile * option CTile) :=
  if 1 <? degree then
    match fuel with
    | O => None
    | S fuel' =>
        if Z.rem degree 2 =? 0 then
          pow_loop fuel' (square ctile) y (Z.quot degree 2)
        else
          let y' := match y with
                    | None => ctile
                    | Some y0 => multiply y0 ctile
                    end in
          pow_loop fuel' (square ctile) (Some y') (Z.quot (degree - 1) 2)
    end
  else Some (ctile, y).

(** [pow he ctile degree] (lines 143-166); the result is the new content of
    [ctile], [None] if the loop did not finish within the fuel. *)
Definition pow (ctile : CTile) (degree : Z) : option CTile :=
  match pow_loop (Z.to_nat degree) ctile None degree with
  | Some (c, Some y) => Some (multiply c y)
  | Some (c, None) => Some c
  | None => None
  end.

(** Lines 267-292 of [run]: the slot-wise match indicator of a database key
    against the query.  [r] is the randomness of the encryption of [one]. *)
Definition equality_mask (r : Rand) (key query : CTile) (plaintextModulus : Z)
  : option CTile :=
  let mask_entry := sub key query in
  match pow mask_entry (wrap_int (plaintextModulus - 1)) with
  | None => None
  | Some res =>
      let res := negate res in
      let valsOne := repeat 1 (Z.to_nat slotCount) in
      let one := encodeEncrypt r valsOne in
      Some (add res one)
  end.

(** Lines 302-306 of [run]:
    [for (int rot = 1; rot < he.slotCount(); rot *= 2)]. *)
Fixpoint rotate_multiply_loop (fuel : nat) (rot : Z) (res : CTile) : option CTile :=
  if rot <? slotCount then
    match fuel with
    | O => None
    | S fuel' =>
        let tmp := rotate res (- rot) in
        rotate_multiply_loop fuel' (wrap_int (rot * 2)) (multiply res tmp)
    end
  else Some res.

Definition rotate_and_multiply (res : CTile) : option CTile :=
  rotate_multiply_loop (Z.to_nat slotCount) 1 res.

(** The body of the search loop (lines 265-316) for one encrypted pair. *)
Definition match_record (r : Rand) (query : CTile) (encrypted_pair : CTile * CTile)
  (plaintextModulus : Z) : option CTile :=
  match equality_mask r (fst encrypted_pair) query plaintextModulus with
  | None => None
  | Some res =>
      match rotate_and_multiply res with
      | None => None
      | Some res => Some (multiply res (snd encrypted_pair))
      end
  end.

(** The encryptions of a run are numbered in the order they happen;
    [rnd k] is the randomness of encryption number [k]. *)
Fixpoint encrypt_db (rnd : nat -> Rand) (k : nat) (country_db : list (string * string))
  : list (CTile * CTile) :=
  match country_db with
  | [] => []
  | country_capital_pair :: rest =>
      let country := encodeEncrypt (rnd k) (stringToAscii (fst country_capital_pair)) in
      let capital := encodeEncrypt (rnd (S k)) (stringToAscii (snd country_capital_pair)) in
      (country, capital) :: encrypt_db rnd (S (S k)) rest
  end.

(** The search loop: the vector [mask]. *)
Fixpoint search (rnd : nat -> Rand) (k : nat) (query : CTile)
  (encrypted_country_db : list (CTile * CTile)) (plaintextModulus : Z)
  : option (list CTile) :=
  match encrypted_country_db with
  | [] => Some []
  | encrypted_pair :: rest =>
      match match_record (rnd k) query encrypted_pair plaintextModulus with
      | None => None
      | Some res =>
          match search rnd (S k) query rest plaintextModulus with
          | None => None
          | Some mask => Some (res :: mask)
          end
      end
  end.

(** Lines 322-324: [value = mask[0]], then every other mask is added. *)
Definition aggregate (mask : list CTile) : outcome CTile :=
  match mask with
  | [] => Undefined
  | mask0 :: others => Ok (fold_left add others mask0)
  end.

Definition not_found_message : string :=
  "Country name not in the database." ++ nl
  ++ "*** Please make sure to enter the name of an European Country" ++ nl
  ++ "*** with the first letter in upper case.".

(** Lines 329-343: decode, convert to a string, replace a leading NUL. *)
Definition report (value : CTile) : outcome string :=
  let res := decryptDecodeInt value in
  let string_result := string_of_list_ascii (map char_of_int res) in
  match string_result with
  | EmptyString => Throw "basic_string::at"
  | String c _ =>
      if Ascii.eqb c zero then Ok not_found_message else Ok string_result
  end.

(** The query part of [run] (lines 250-346) on a database that is already
    encrypted; [k] numbers the next encryption. *)
Definition lookup (rnd : nat -> Rand) (k : nat)
  (encrypted_country_db : list (CTile * CTile)) (query_string : string)
  (plaintextModulus : Z) : outcome string :=
  let query := encodeEncrypt (rnd k) (stringToAscii query_string) in
  match search rnd (S k) query encrypted_country_db plaintextModulus with
  | None => Diverges
  | Some mask =>
      match aggregate mask with
      | Ok value => report value
      | Throw msg => Throw msg
      | Undefined => Undefined
      | Diverges => Diverges
      end
  end.

(** [run] (lines 168-347).  [file] is the content of [db_filename], [cin]
    the line read from standard input when no country is given. *)
Definition run (rnd : nat -> Rand) (file : option string)
  (db_filename countryName cin : string) (plaintextModulus : Z) : outcome string :=
  if negb isModularArithmetic then Throw "always_assert"
  else
    match read_csv file db_filename slotCount with
    | Ok country_db =>
        let encrypted_country_db := encrypt_db rnd 0 country_db in
        let query_string :=
          if String.eqb countryName "" then cin else countryName in
        lookup rnd (2 * length country_db) encrypted_country_db query_string
               plaintextModulus
    | Throw msg => Throw msg
    | Undefined => Undefined
    | Diverges => Diverges
    end.

(** [main] (lines 57-129) once the arguments are parsed: the assertion on
    the modulus, then [he.init], whose result is the context [he], then
    [run]. *)
Definition main (rnd : nat -> Rand) (file : option string)
  (db_filename countryName cin : string) (plaintextModulus : Z) : outcome string :=
  if setup_check plaintextModulus
  then run rnd file db_filename countryName cin plaintextModulus
  else Throw "always_assert(plaintextModulus >= 127)".

End Program.

(** ** main: the command line (lines 57-129) *)

Module Args.

Definition tab : string := String (ascii_of_nat 9) EmptyString.

(** What [usage] prints (lines 131-141). *)
Definition usage : string :=
  "Usage:" ++ nl ++ nl
  ++ tab ++ "--plaintext_modulus" ++ tab ++ tab ++ "Plaintext modulus" ++ nl
  ++ tab ++ "--db_filename" ++ tab ++ tab ++ tab
  ++ "Qualified name for the database filename" ++ nl
  ++ tab ++ "--country <int>" ++ tab ++ tab ++ tab ++ "Country to search for" ++ nl
  ++ tab ++ "---debug" ++ tab ++ tab ++ tab ++ "Debug" ++ nl
  ++ nl.

(** [isspace] and [isdigit] of the C locale. *)
Definition isspace (c : ascii) : bool :=
  let n := nat_of_ascii c in
  (n =? 32)%nat || ((9 <=? n)%nat && (n <=? 13)%nat).

Definition isdigit (c : ascii) : bool :=
  let n := nat_of_ascii c in
  (48 <=? n)%nat && (n <=? 57)%nat.

Fixpoint skip_space (s : string) : string :=
  match s with
  | EmptyString => EmptyString
  | String c s' => if isspace c then skip_space s' else s
  end.

(** The value of the leading decimal digits of [s], continuing from [acc]. *)
Fixpoint digits_value (acc : Z) (s : string) : Z :=
  match s with
  | EmptyString => acc
  | String c s' =>
      if isdigit c
      then digits_value (acc * 10 + (Z.of_nat (nat_of_ascii c) - 48)) s'
      else acc
  end.

(** [atoi] of the C library: white space, an optional sign, decimal digits;
    whatever follows is ignored, no digit at all gives 0, and a value that
    does not fit an [int] is undefined behaviour. *)
Definition atoi_value (s : string) : Z :=
  match skip_space s with
  | String "-"%char s' => - digits_value 0 s'
  | String "+"%char s' => digits_value 0 s'
  | s' => digits_value 0 s'
  end.

Definition atoi (s : string) : outcome Z :=
  let v := atoi_value s in
  if (- 2147483648 <=? v) && (v <=? INT_MAX) then Ok v else Undefined.

(** The variables the argument loop sets. *)
Record config : Type := {
  db_filename : string;
  debug : bool;
  plaintextModulus : Z;
  countryName : string
}.

Definition set_plaintextModulus (c : config) (m : Z) : config :=
  {| db_filename := db_filename c; debug := debug c;
     plaintextModulus := m; countryName := countryName c |}.

Definition set_db_filename (c : config) (f : string) : config :=
  {| db_filename := f; debug := debug c;
     plaintextModulus := plaintextModulus c; countryName := countryName c |}.

Definition set_countryName (c : config) (n : string) : config :=
  {| db_filename := db_filename c; debug := debug c;
     plaintextModulus := plaintextModulus c; countryName := n |}.

Definition set_debug (c : config) : config :=
  {| db_filename := db_filename c; debug := true;
     plaintextModulus := plaintextModulus c; countryName := countryName c |}.

(** The loop either leaves through [--help] or falls through to the run. *)
Inductive parsed : Type :=
| Help
| Go (c : config).

(** The loop of lines 72-89 over [argv[i], ..., argv[argc-1]].  [argv[i++]]
    for the value of an option reads [argv[argc]], a null pointer, when the
    option is the last argument: undefined behaviour in [atoi] and in the
    assignment to a [string]. *)
Fixpoint parse_args (args : list string) (c : config) : outcome parsed :=
  match args with
  | [] => Ok (Go c)
  | arg :: rest =>
      if String.eqb arg "--help" then Ok Help
      else if String.eqb arg "--plaintext_modulus" then
        match rest with
        | [] => Undefined
        | value :: rest' =>
            match atoi value with
            | Ok m => parse_args rest' (set_plaintextModulus c m)
            | Throw msg => Throw msg
            | Undefined => Undefined
            | Diverges => Diverges
            end
        end
      else if String.eqb arg "--db_filename" then
        match rest with
        | [] => Undefined
        | value :: rest' => parse_args rest' (set_db_filename c value)
        end
      else if String.eqb arg "--country" then
        match rest with
        | [] => Undefined
        | value :: rest' => parse_args rest' (set_countryName c value)
        end
      else if String.eqb arg "--debug" then parse_args rest (set_debug c)
      else Throw ("Unsupported argument: " ++ arg)
  end.

(** The values of lines 64-70; [dataSetsDir] is what [getDataSetsDir()]
    returns. *)
Definition defaults (dataSetsDir : string) : config :=
  {| db_filename := dataSetsDir ++ "/countries/countries.csv";
     debug := false;
     plaintextModulus := 257;
     countryName := "" |}.

(** How [main] ends when nothing goes wrong: after [usage], or after the
    query result is printed. *)
Inductive finished : Type :=
| UsagePrinted (text : string)
| QueryResult (string_result : string).

(** [main] from [argv] on.  [init m] is the context [he.init] sets up for
    the plaintext modulus [m], [rnd m] its randomness tape, [fs] maps a file
    name to the content of the file, [cin] is the line on standard input. *)
Definition main_argv (init : Z -> HeContext)
  (rnd : forall m : Z, nat -> @Rand (init m))
  (fs : string -> option string) (dataSetsDir cin : string)
  (argv : list string) : outcome finished :=
  match parse_args (tl argv) (defaults dataSetsDir) with
  | Ok Help => Ok (UsagePrinted usage)
  | Ok (Go c) =>
      match @main (init (plaintextModulus c)) (rnd (plaintextModulus c))
                  (fs (db_filename c)) (db_filename c) (countryName c) cin
                  (plaintextModulus c) with
      | Ok string_result => Ok (QueryResult string_result)
      | Throw msg => Throw msg
      | Undefined => Undefined
      | Diverges => Diverges
      end
  | Throw msg => Throw msg
  | Undefined => Undefined
  | Diverges => Diverges
  end.

End Args.

(** ** Database files *)

(** Not part of the program: the file a database is written to for
    [read_csv], one line [key,value] per record. *)
Definition csv_line (kv : string * string) : string :=
  fst kv ++ "," ++ snd kv.

Fixpoint csv_file (db : list (string * string)) : string :=
  match db with
  | [] => EmptyString
  | kv :: rest => csv_line kv ++ nl ++ csv_file rest
  end.

(** [s] has no character [c]. *)
Definition free_of (c : ascii) (s : string) : bool :=
  forallb (fun x => negb (Ascii.eqb x c)) (list_ascii_of_string s).

(** Not part of the program: the text of a database file, spelled out.  A
    row is a key, a value and what may follow on the line after a second
    comma; the text of a file is its lines, each ended by a line feed, the
    last one with or without it. *)
Definition row : Type := (string * string) * option string.

Definition row_text (r : row) : string :=
  csv_line (fst r) ++
  match snd r with
  | None => EmptyString
  | Some rest => "," ++ rest
  end.

Fixpoint file_text (lines : list string) (final_nl : bool) : string :=
  match lines with
  | [] => EmptyString
  | [line] => if final_nl then line ++ nl else line
  | line :: rest => line ++ nl ++ file_text rest final_nl
  end.

(** A row [read_csv] is meant for: key and value without comma and line
    feed, nothing on the line that is a line feed, and a value that is not
    empty when the line ends with it. *)
Definition valid_row (r : row) : bool :=
  free_of ","%char (fst (fst r)) && free_of (ascii_of_nat 10) (fst (fst r)) &&
  free_of ","%char (snd (fst r)) && free_of (ascii_of_nat 10) (snd (fst r)) &&
  match snd r with
  | None => negb (String.eqb (snd (fst r)) "")
  | Some rest => free_of (ascii_of_nat 10) rest
  end.

(** * Properties *)

(** ** Slot vectors *)

Module SlotFacts.

Lemma slotwise_length f a b :
  length (slotwise f a b) = Nat.min (length a) (length b).
Proof.
  revert b; induction a as [|x a IH]; intros [|y b]; simpl; auto.
Qed.

Lemma slotwise_nth f a b i d :
  (i < length a)%nat -> (i < length b)%nat ->
  nth i (slotwise f a b) d = f (nth i a d) (nth i b d).
Proof.
  revert b i; induction a as [|x a IH]; intros [|y b] [|i]; simpl; try lia; auto.
  intros; apply IH; lia.
Qed.

Lemma slotwise_Forall (P : Z -> Prop) f a b :
  (forall x y, P (f x y)) -> Forall P (slotwise f a b).
Proof.
  intros Hf; revert b; induction a as [|x a IH]; intros [|y b]; simpl; auto.
Qed.

Lemma slotwise_map_l f g a b :
  slotwise f (map g a) b = slotwise (fun x y => f (g x) y) a b.
Proof.
  revert b; induction a as [|x a IH]; intros [|y b]; simpl; auto.
  now rewrite IH.
Qed.

Lemma slotwise_ext_in f g a b :
  (forall x y, In x a -> In y b -> f x y = g x y) ->
  slotwise f a b = slotwise g a b.
Proof.
  revert b; induction a as [|x a IH]; intros [|y b] H; simpl; auto.
  f_equal; [apply H; simpl; auto|].
  apply IH; intros; apply H; simpl; auto.
Qed.

Lemma firstn_Forall (P : Z -> Prop) k v : Forall P v -> Forall P (firstn k v).
Proof.
  intros H; revert k; induction H as [|x v Hx _ IH]; intros [|k]; simpl; auto.
Qed.

Section Modular.

Variable p : Z.
Variable n : nat.
Hypothesis p_pos : 0 < p.

(** A vector is normal when it has [n] slots, all of them in [[0, p)]. *)
Definition normal (v : list Z) : Prop := length v = n /\ Forall (in_range p) v.

Lemma pad_trunc_length v : length (pad_trunc n v) = n.
Proof.
  unfold pad_trunc. rewrite length_app, length_firstn, repeat_length. lia.
Qed.

Lemma pad_trunc_id v : length v = n -> pad_trunc n v = v.
Proof.
  intros H. unfold pad_trunc.
  rewrite firstn_all2 by lia.
  replace (n - length v)%nat with 0%nat by lia. simpl. apply app_nil_r.
Qed.

Lemma encode_normal v : normal (encode p n v).
Proof.
  split; [apply pad_trunc_length|].
  unfold encode, pad_trunc. apply Forall_app; split.
  - apply firstn_Forall, Forall_forall. intros x Hx.
    apply in_map_iff in Hx. destruct Hx as [y [<- _]].
    unfold in_range. apply Z.mod_pos_bound; lia.
  - apply Forall_forall. intros x Hx. apply repeat_spec in Hx. subst.
    unfold in_range; lia.
Qed.

Lemma map_mod_id v : Forall (in_range p) v -> map (fun x => x mod p) v = v.
Proof.
  induction 1 as [|x v Hx _ IH]; simpl; auto.
  rewrite IH. f_equal. apply Z.mod_small. exact Hx.
Qed.

Lemma encode_id v : normal v -> encode p n v = v.
Proof.
  intros [Hl Hr]. unfold encode. rewrite map_mod_id by assumption.
  now apply pad_trunc_id.
Qed.

Lemma slotwise_normal f a b :
  (forall x y, f x y = f x y mod p) -> normal a -> normal b ->
  normal (slotwise f a b).
Proof.
  intros Hf [La _] [Lb _]. split.
  - rewrite slotwise_length. lia.
  - apply slotwise_Forall. intros x y. rewrite Hf.
    unfold in_range. apply Z.mod_pos_bound; lia.
Qed.

Lemma vadd_normal a b : normal a -> normal b -> normal (vadd p a b).
Proof. apply slotwise_normal. intros; now rewrite Z.mod_mod by lia. Qed.

Lemma vsub_normal a b : normal a -> normal b -> normal (vsub p a b).
Proof. apply slotwise_normal. intros; now rewrite Z.mod_mod by lia. Qed.

Lemma vmul_normal a b : normal a -> normal b -> normal (vmul p a b).
Proof. apply slotwise_normal. intros; now rewrite Z.mod_mod by lia. Qed.

Lemma map_mod_normal (g : Z -> Z) a : normal a -> normal (map (fun x => g x mod p) a).
Proof.
  intros [La _]. split; [now rewrite length_map|].
  apply Forall_forall. intros x Hx. apply in_map_iff in Hx.
  destruct Hx as [y [<- _]]. unfold in_range. apply Z.mod_pos_bound; lia.
Qed.

Lemma vneg_normal a : normal a -> normal (vneg p a).
Proof. apply (map_mod_normal (fun x => - x)). Qed.

Lemma vsquare_normal a : normal a -> normal (vsquare p a).
Proof. apply (map_mod_normal (fun x => x * x)). Qed.

Lemma vrotate_length k (a : list Z) : length (vrotate k a) = length a.
Proof. unfold vrotate. now rewrite length_map, length_seq. Qed.

Lemma vrotate_nth k (a : list Z) i :
  (i < length a)%nat ->
  nth i (vrotate k a) 0 =
  nth (Z.to_nat ((Z.of_nat i - k) mod Z.of_nat (length a))) a 0.
Proof.
  intros Hi. unfold vrotate.
  set (f := fun i : nat => nth (Z.to_nat ((Z.of_nat i - k) mod Z.of_nat (length a))) a 0).
  rewrite (nth_indep _ 0 (f 0%nat)) by now rewrite length_map, length_seq.
  rewrite map_nth, seq_nth by assumption. reflexivity.
Qed.

Lemma normal_nth a i : normal a -> in_range p (nth i a 0).
Proof.
  intros [_ Hr]. destruct (Nat.lt_ge_cases i (length a)) as [Hi|Hi].
  - rewrite Forall_forall in Hr. apply Hr. now apply nth_In.
  - rewrite nth_overflow by lia. unfold in_range; lia.
Qed.

Lemma vrotate_normal k a : normal a -> normal (vrotate k a).
Proof.
  intros Ha. split.
  - rewrite vrotate_length. apply Ha.
  - unfold vrotate. apply Forall_forall. intros x Hx.
    apply in_map_iff in Hx. destruct Hx as [i [<- _]].
    now apply normal_nth.
Qed.

End Modular.

End SlotFacts.

Import SlotFacts.

(** ** A capability that satisfies the contract *)

(** Ciphertexts "in the clear": the slot vector together with the trace of
    the randomness that went into it.  The trace makes ciphertexts of equal
    plaintexts differ; decryption forgets it.  This instance shows that the
    laws of [HeContext] can be met and lets the program run on concrete
    inputs. *)
Module Clear.

Section Clear.

Variables p n : Z.
Hypothesis p_gt_1 : 1 < p.
Hypothesis n_nonneg : 0 <= n.

Let p_pos : 0 < p := Z.lt_trans 0 1 p Z.lt_0_1 p_gt_1.

Definition tile : Type := list Z * list nat.

Definition dec (c : tile) : list Z := encode p (Z.to_nat n) (fst c).
Definition enc (r : nat) (v : list Z) : tile := (encode p (Z.to_nat n) v, [r]).

Definition lift1 (f : list Z -> list Z) (a : tile) : tile := (f (dec a), snd a).
Definition lift2 (f : list Z -> list Z -> list Z) (a b : tile) : tile :=
  (f (dec a) (dec b), snd a ++ snd b).

Lemma tile_normal c : normal p (Z.to_nat n) (dec c).
Proof. now apply encode_normal. Qed.

Lemma dec_lift1 f a :
  (forall v, normal p (Z.to_nat n) v -> normal p (Z.to_nat n) (f v)) ->
  dec (lift1 f a) = f (dec a).
Proof.
  intros Hf. unfold dec at 1. simpl.
  apply encode_id; auto. apply Hf, tile_normal.
Qed.

Lemma dec_lift2 f a b :
  (forall v w, normal p (Z.to_nat n) v -> normal p (Z.to_nat n) w ->
               normal p (Z.to_nat n) (f v w)) ->
  dec (lift2 f a b) = f (dec a) (dec b).
Proof.
  intros Hf. unfold dec at 1. simpl.
  apply encode_id; auto. apply Hf; apply tile_normal.
Qed.

Lemma dec_enc r v : dec (enc r v) = encode p (Z.to_nat n) v.
Proof.
  unfold dec, enc. simpl. apply encode_id; auto. now apply encode_normal.
Qed.

Definition context : HeContext := {|
  CTile := tile;
  Rand := nat;
  slotCount := n;
  modulus := p;
  isModularArithmetic := true;
  encodeEncrypt := enc;
  decryptDecodeInt := dec;
  add := lift2 (vadd p);
  sub := lift2 (vsub p);
  multiply := lift2 (vmul p);
  negate := lift1 (vneg p);
  square := lift1 (vsquare p);
  rotate := fun a k => lift1 (vrotate k) a;
  slotCount_nonneg := n_nonneg;
  modulus_gt_1 := p_gt_1;
  dec_length := fun c => proj1 (tile_normal c);
  dec_range := fun c => proj2 (tile_normal c);
  dec_encodeEncrypt := dec_enc;
  dec_add := fun a b => dec_lift2 _ a b (vadd_normal p _ p_pos);
  dec_sub := fun a b => dec_lift2 _ a b (vsub_normal p _ p_pos);
  dec_multiply := fun a b => dec_lift2 _ a b (vmul_normal p _ p_pos);
  dec_negate := fun a => dec_lift1 _ a (vneg_normal p _ p_pos);
  dec_square := fun a => dec_lift1 _ a (vsquare_normal p _ p_pos);
  dec_rotate := fun a k => dec_lift1 _ a (vrotate_normal p _ p_pos k)
|}.

End Clear.

(** The configuration of [main]: modulus 257 and 32 slots. *)
Definition he257 : HeContext := context 257 32 eq_refl (fun H => ltac:(discriminate H)).

(** Randomness tapes. *)
Definition tape0 : nat -> nat := fun k => k.
Definition tape1 : nat -> nat := fun k => (7 * k + 3)%nat.

End Clear.

(** ** The exponentiation engine *)

Lemma slotwise_map_same g (f1 f2 : Z -> Z) v :
  slotwise g (map f1 v) (map f2 v) = map (fun x => g (f1 x) (f2 x)) v.
Proof. induction v as [|x v IH]; simpl; congruence. Qed.

Lemma vsquare_vpow p e v :
  0 <= e -> vsquare p (vpow p e v) = vpow p (2 * e) v.
Proof.
  intros He. unfold vsquare, vpow. rewrite map_map.
  apply map_ext. intros x.
  rewrite <- Zmult_mod.
  replace (2 * e) with (e + e) by lia.
  now rewrite Z.pow_add_r by lia.
Qed.

Lemma vmul_vpow p f e v :
  0 <= f -> 0 <= e -> vmul p (vpow p f v) (vpow p e v) = vpow p (f + e) v.
Proof.
  intros Hf He. unfold vmul, vpow. rewrite slotwise_map_same.
  apply map_ext. intros x.
  rewrite <- Zmult_mod.
  now rewrite Z.pow_add_r by lia.
Qed.

Section PowFacts.

Context {he : HeContext}.

Let p : Z := modulus.

Lemma dec_normal (c : CTile) : normal p (Z.to_nat slotCount) (decryptDecodeInt c).
Proof. split; [apply dec_length | apply dec_range]. Qed.

Lemma vpow_1 (c : CTile) : vpow p 1 (decryptDecodeInt c) = decryptDecodeInt c.
Proof.
  unfold vpow. rewrite <- (map_mod_id p (decryptDecodeInt c)) at 2 by apply dec_range.
  apply map_ext. intros x. now rewrite Z.pow_1_r.
Qed.

(** What [pow] does after the loop (lines 164-165). *)
Definition finish (st : CTile * option CTile) : CTile :=
  match st with
  | (c, Some y) => multiply c y
  | (c, None) => c
  end.

Lemma pow_finish c d :
  pow c d = option_map finish (pow_loop (Z.to_nat d) c None d).
Proof.
  unfold pow. destruct (pow_loop _ _ _ _) as [[c' [y|]]|]; reflexivity.
Qed.

(** The loop invariant: with [v] the slots of the argument and [D] the
    degree asked for, the tile holds [v^e], the accumulator [v^f] (nothing
    yet when [f = 0]), and [e * degree + f = D]. *)
Definition acc_holds (v : list Z) (y : option CTile) (f : Z) : Prop :=
  match y with
  | None => f = 0
  | Some y0 => 0 <= f /\ decryptDecodeInt y0 = vpow p f v
  end.

Lemma pow_loop_correct v fuel :
  forall c y d e f,
    1 <= d -> (Z.to_nat d <= fuel)%nat -> 1 <= e ->
    decryptDecodeInt c = vpow p e v -> acc_holds v y f ->
    exists st, pow_loop fuel c y d = Some st /\
               decryptDecodeInt (finish st) = vpow p (e * d + f) v.
Proof.
  induction fuel as [|fuel IH]; intros c y d e f Hd Hfuel He Hc Hy.
  - lia.
  - simpl. destruct (1 <? d) eqn:Hlt.
    + apply Z.ltb_lt in Hlt.
      rewrite Z.rem_mod_nonneg by lia.
      destruct (d mod 2 =? 0) eqn:Hpar.
      * apply Z.eqb_eq in Hpar.
        rewrite Z.quot_div_nonneg by lia.
        assert (Hd2 : d = 2 * (d / 2)) by (pose proof (Z.div_mod d 2); lia).
        destruct (IH (square c) y (d / 2) (2 * e) f) as [st [Hst Hdec]];
          try lia; auto.
        { rewrite dec_square, Hc. apply vsquare_vpow. lia. }
        exists st. split; [exact Hst|].
        rewrite Hdec. f_equal. lia.
      * apply Z.eqb_neq in Hpar.
        rewrite Z.quot_div_nonneg by lia.
        assert (Hd2 : d = 2 * ((d - 1) / 2) + 1).
        { pose proof (Z.div_mod d 2). pose proof (Z.div_mod (d - 1) 2).
          pose proof (Z.mod_pos_bound d 2). pose proof (Z.mod_pos_bound (d - 1) 2).
          assert (d mod 2 = 1) by lia.
          assert ((d - 1) mod 2 = 0).
          { replace (d - 1) with ((d / 2) * 2) by lia. apply Z.mod_mul. lia. }
          lia. }
        set (y' := match y with None => c | Some y0 => multiply y0 c end).
        destruct (IH (square c) (Some y') ((d - 1) / 2) (2 * e) (f + e))
          as [st [Hst Hdec]]; try lia; auto.
        { rewrite dec_square, Hc. apply vsquare_vpow. lia. }
        { simpl. split; [destruct y; simpl in Hy; lia|].
          unfold y'. destruct y as [y0|]; simpl in Hy.
          - destruct Hy as [Hf Hy0].
            rewrite dec_multiply, Hy0, Hc. apply vmul_vpow; lia.
          - subst f. exact Hc. }
        exists st. split; [exact Hst|].
        rewrite Hdec. f_equal. lia.
    + apply Z.ltb_ge in Hlt. assert (d = 1) by lia. subst d.
      exists (c, y). split; [reflexivity|].
      destruct y as [y0|]; simpl in *.
      * destruct Hy as [Hf Hy0].
        rewrite dec_multiply, Hy0, Hc.
        replace (e * 1 + f) with (e + f) by lia. apply vmul_vpow; lia.
      * subst f. rewrite Hc. f_equal. lia.
Qed.

(** [pow] in terms of [vpow], for the proofs about its callers. *)
Lemma pow_vpow (ctile : CTile) (degree : Z) :
  1 <= degree ->
  exists ctile',
    pow ctile degree = Some ctile' /\
    decryptDecodeInt ctile' = vpow p degree (decryptDecodeInt ctile).
Proof.
  intros Hd.
  destruct (pow_loop_correct (decryptDecodeInt ctile) (Z.to_nat degree)
              ctile None degree 1 0) as [st [Hst Hdec]];
    try lia; [symmetry; apply vpow_1 | reflexivity |].
  exists (finish st). rewrite pow_finish, Hst, Hdec.
  split; [reflexivity | f_equal; lia].
Qed.

(** C3.  For every degree >= 1 and every ciphertext, [pow] comes back (the
    fuel of the loop is enough) and the tile it leaves decodes, slot by slot,
    to the original value raised to [degree] modulo the plaintext modulus.
    The recurrence it follows is [pow_loop]: square on an even degree; on an
    odd one fold the tile into the accumulator, square and halve; at the end
    multiply by the accumulator if it was ever assigned. *)
Theorem pow_correct (ctile : CTile) (degree : Z) :
  1 <= degree ->
  exists ctile',
    pow ctile degree = Some ctile' /\
    decryptDecodeInt ctile' =
      map (fun x => x ^ degree mod modulus) (decryptDecodeInt ctile).
Proof.
  intros Hd.
  destruct (pow_loop_correct (decryptDecodeInt ctile) (Z.to_nat degree)
              ctile None degree 1 0) as [st [Hst Hdec]]; try lia.
  - symmetry. apply vpow_1.
  - reflexivity.
  - exists (finish st). split.
    + rewrite pow_finish, Hst. reflexivity.
    + rewrite Hdec. unfold vpow. apply map_ext. intros x. f_equal. f_equal. lia.
Qed.

End PowFacts.

(** ** The equality mask *)

Lemma wrap_int_small z : - 2147483648 <= z <= INT_MAX -> wrap_int z = z.
Proof.
  unfold wrap_int, INT_MAX. intros H.
  rewrite Z.mod_small by lia. lia.
Qed.

Lemma map_slotwise (g : Z -> Z) f a b :
  map g (slotwise f a b) = slotwise (fun x y => g (f x y)) a b.
Proof.
  revert b; induction a as [|x a IH]; intros [|y b]; simpl; auto.
  now rewrite IH.
Qed.

Lemma slotwise_repeat_r f a c n :
  length a = n -> slotwise f a (repeat c n) = map (fun x => f x c) a.
Proof.
  revert n; induction a as [|x a IH]; intros [|n] H; simpl in *; try lia; auto.
  f_equal. apply IH. lia.
Qed.

Lemma repeat_normal p n c : in_range p c -> normal p n (repeat c n).
Proof.
  intros Hc. split; [apply repeat_length|].
  apply Forall_forall. intros x Hx. apply repeat_spec in Hx. now subst.
Qed.

(** Fermat's little theorem as the program uses it: one slot of the mask. *)
Lemma fermat_slot p x y :
  Z.prime p -> in_range p x -> in_range p y ->
  (- (((x - y) mod p) ^ (p - 1) mod p) mod p + 1) mod p = if x =? y then 1 else 0.
Proof.
  intros Hp Hx Hy. pose proof (Z.prime_ge_2 p Hp) as Hp2.
  unfold in_range in *.
  destruct (x =? y) eqn:Hxy.
  - apply Z.eqb_eq in Hxy. subst y.
    rewrite Z.sub_diag, Zmod_0_l.
    rewrite Z.pow_0_l by lia.
    rewrite ?Zmod_0_l, ?Z.opp_0, ?Zmod_0_l, ?Z.add_0_l.
    apply Z.mod_small. lia.
  - apply Z.eqb_neq in Hxy.
    assert (Hnz : ((x - y) mod p) mod p <> 0).
    { rewrite Z.mod_mod by lia. intros H0.
      apply Z.mod_divide in H0; [|lia]. destruct H0 as [q Hq].
      assert (q = 0) by nia. lia. }
    rewrite (Z.fermat_nz p _ Hp Hnz).
    replace (- (1) mod p) with (p - 1).
    + replace (p - 1 + 1) with (1 * p) by lia. apply Z.mod_mul. lia.
    + apply Z.mod_unique with (q := -1); lia.
Qed.

Lemma indicator_all_ones a : forall b n,
  length a = n -> length b = n ->
  (indicator a b = repeat 1 n <-> a = b).
Proof.
  unfold indicator.
  induction a as [|x a IH]; intros [|y b] [|n] Ha Hb; simpl in *; try lia.
  - tauto.
  - specialize (IH b n ltac:(lia) ltac:(lia)). split.
    + intros H. injection H as Hxy Hrest.
      destruct (x =? y) eqn:E; [|discriminate].
      apply Z.eqb_eq in E. f_equal; tauto.
    + intros H. injection H as -> ->. rewrite Z.eqb_refl. f_equal. now apply IH.
Qed.

Section MaskFacts.

Context {he : HeContext}.

Let p : Z := modulus.
Let n : nat := Z.to_nat slotCount.

Lemma dec_ones r : decryptDecodeInt (encodeEncrypt r (repeat 1 n)) = repeat 1 n.
Proof.
  rewrite dec_encodeEncrypt. apply encode_id, repeat_normal.
  unfold in_range. pose proof modulus_gt_1. lia.
Qed.

(** The mask decodes to the slot-wise equality indicator. *)
Lemma equality_mask_decodes (r : Rand) (key query : CTile) :
  Z.prime modulus -> modulus <= INT_MAX ->
  exists mask,
    equality_mask r key query modulus = Some mask /\
    decryptDecodeInt mask =
      indicator (decryptDecodeInt key) (decryptDecodeInt query).
Proof.
  intros Hp Hmax. pose proof (Z.prime_ge_2 _ Hp) as Hp2.
  unfold equality_mask.
  rewrite wrap_int_small by (unfold INT_MAX in *; lia).
  destruct (pow_vpow (sub key query) (modulus - 1)) as [res [Hpow Hres]];
    [lia|].
  rewrite Hpow. eexists. split; [reflexivity|].
  rewrite dec_add, dec_negate, Hres, dec_sub.
  fold n. rewrite (dec_ones r).
  unfold vadd, vneg, vsub, vpow. rewrite !map_slotwise.
  rewrite slotwise_repeat_r
    by (rewrite slotwise_length, !dec_length; unfold n; lia).
  rewrite map_slotwise.
  unfold indicator. apply slotwise_ext_in. intros x y Hx Hy.
  apply fermat_slot; auto.
  - pose proof (dec_range key) as Hr. rewrite Forall_forall in Hr. now apply Hr.
  - pose proof (dec_range query) as Hr. rewrite Forall_forall in Hr. now apply Hr.
Qed.

(** C2.  For a prime plaintext modulus, the equality mask of two ciphertexts
    (subtract, raise to the power p-1, negate, add the all-ones vector) comes
    back and decodes to 1 in every slot where the two decoded vectors agree
    and to 0 in every slot where they differ; it decodes to the all-ones
    vector exactly when the two vectors are equal slot by slot.  (Decoded
    slots lie in [[0, p)] by the contract [dec_range].) *)
Theorem equality_mask_correct (r : Rand) (key query : CTile) :
  Z.prime modulus -> modulus <= INT_MAX ->
  exists mask,
    equality_mask r key query modulus = Some mask /\
    (forall i, (i < Z.to_nat slotCount)%nat ->
       nth i (decryptDecodeInt mask) 0 =
       if nth i (decryptDecodeInt key) 0 =? nth i (decryptDecodeInt query) 0
       then 1 else 0) /\
    (decryptDecodeInt mask = repeat 1 (Z.to_nat slotCount) <->
     decryptDecodeInt key = decryptDecodeInt query).
Proof.
  intros Hp Hmax.
  destruct (equality_mask_decodes r key query Hp Hmax) as [mask [Hrun Hdec]].
  exists mask. split; [exact Hrun|]. split.
  - intros i Hi. rewrite Hdec. unfold indicator.
    apply slotwise_nth; rewrite dec_length; exact Hi.
  - rewrite Hdec. apply indicator_all_ones; apply dec_length.
Qed.

End MaskFacts.

(** ** The slot reduction *)

Lemma forallb_pointwise (f g : nat -> bool) l :
  (forall t, f t = g t) -> forallb f l = forallb g l.
Proof. intros H. induction l as [|x l IH]; simpl; congruence. Qed.

Lemma forallb_seq_shift len : forall (f : nat -> bool) a,
  forallb f (seq a len) = forallb (fun t => f (a + t)%nat) (seq 0 len).
Proof.
  induction len as [|len IH]; intros f a; simpl; [reflexivity|].
  rewrite Nat.add_0_r. f_equal.
  rewrite (IH f (S a)), (IH (fun t => f (a + t)%nat) 1%nat).
  apply forallb_pointwise. intros t. f_equal. lia.
Qed.

Lemma window_double v i m :
  window v i (m + m) = window v i m && window v ((i + m) mod length v) m.
Proof.
  unfold window. rewrite seq_app, forallb_app. f_equal.
  simpl. rewrite forallb_seq_shift.
  apply forallb_pointwise. intros t.
  destruct (Nat.eq_dec (length v) 0) as [E|E].
  - rewrite !nth_overflow by lia. reflexivity.
  - rewrite Nat.Div0.add_mod_idemp_l. now rewrite Nat.add_assoc.
Qed.

Lemma window_full v i :
  (i < length v)%nat -> window v i (length v) = all_ones v.
Proof.
  intros Hi. unfold window, all_ones.
  apply eq_true_iff_eq. rewrite !forallb_forall. split.
  - intros H x Hx. destruct (In_nth v x 0 Hx) as [s [Hs <-]].
    specialize (H ((s + (length v - i)) mod length v)%nat).
    rewrite Nat.Div0.add_mod_idemp_r in H.
    replace (i + (s + (length v - i)))%nat with (s + 1 * length v)%nat in H by lia.
    rewrite Nat.Div0.mod_add, (Nat.mod_small s) in H by lia.
    apply H. apply in_seq. split; [lia|]. simpl. apply Nat.mod_upper_bound. lia.
  - intros H t _. apply H. apply nth_In. apply Nat.mod_upper_bound. lia.
Qed.

Lemma window_one v i :
  (i < length v)%nat -> bit (nth i v 0) -> nth i v 0 = Z.b2z (window v i 1).
Proof.
  intros Hi Hb. unfold window. simpl.
  rewrite Nat.add_0_r, Nat.mod_small by lia.
  destruct Hb as [-> | ->]; reflexivity.
Qed.

Lemma rotate_index i r n :
  Z.to_nat ((Z.of_nat i - - Z.of_nat r) mod Z.of_nat n) = ((i + r) mod n)%nat.
Proof.
  replace (Z.of_nat i - - Z.of_nat r) with (Z.of_nat (i + r)) by lia.
  rewrite <- Nat2Z.inj_mod. apply Nat2Z.id.
Qed.

Lemma nth_repeat_in i m (a d : Z) :
  (i < m)%nat -> nth i (repeat a m) d = a.
Proof.
  revert i; induction m as [|m IH]; intros [|i] H; simpl; try lia; auto.
  apply IH. lia.
Qed.

Lemma b2z_mul_mod p a b : 1 < p -> (Z.b2z a * Z.b2z b) mod p = Z.b2z (a && b).
Proof. intros Hp. destruct a, b; simpl; apply Z.mod_small; lia. Qed.

Lemma product_bits v :
  Forall bit v -> fold_right Z.mul 1 v = Z.b2z (all_ones v).
Proof.
  unfold all_ones. induction 1 as [|x v Hx _ IH]; simpl; [reflexivity|].
  rewrite IH. destruct Hx as [-> | ->]; simpl; [reflexivity|].
  destruct (forallb _ v); reflexivity.
Qed.

Lemma all_ones_Forall v : all_ones v = true <-> Forall (fun x => x = 1) v.
Proof.
  unfold all_ones. rewrite forallb_forall, Forall_forall.
  split; intros H x Hx; specialize (H x Hx); now apply Z.eqb_eq.
Qed.

Section ReductionFacts.

Context {he : HeContext}.

Variable k : nat.
Hypothesis slots_pow2 : slotCount = 2 ^ Z.of_nat k.
Hypothesis slots_int : slotCount <= INT_MAX.

Let n : nat := Z.to_nat slotCount.

Lemma slots_nat : n = (2 ^ k)%nat.
Proof.
  unfold n. rewrite slots_pow2.
  change 2 with (Z.of_nat 2). rewrite <- Nat2Z.inj_pow. apply Nat2Z.id.
Qed.

Lemma slotCount_nat : slotCount = Z.of_nat (2 ^ k).
Proof. rewrite slots_pow2, Nat2Z.inj_pow. reflexivity. Qed.

(** The invariant of the loop: after the rounds for [rot = 1, ..., 2^(j-1)]
    slot [i] holds the conjunction of the [2^j] slots of the original vector
    [v] from [i] on. *)
Definition reduced (v : list Z) (j : nat) (res : CTile) : Prop :=
  forall i, (i < n)%nat ->
            nth i (decryptDecodeInt res) 0 = Z.b2z (window v i (2 ^ j)).

Lemma reduced_step v j res :
  length v = n -> reduced v j res ->
  reduced v (S j) (multiply res (rotate res (- Z.of_nat (2 ^ j)))).
Proof.
  intros Hv H i Hi.
  rewrite dec_multiply, dec_rotate. unfold vmul.
  rewrite slotwise_nth
    by (rewrite ?vrotate_length, dec_length; exact Hi).
  rewrite vrotate_nth by (rewrite dec_length; exact Hi).
  rewrite dec_length. fold n. rewrite rotate_index.
  assert (Hn : n <> 0%nat) by lia.
  rewrite (H i Hi), (H ((i + 2 ^ j) mod n)%nat)
    by (apply Nat.mod_upper_bound; exact Hn).
  rewrite b2z_mul_mod by apply modulus_gt_1.
  f_equal. simpl. rewrite Nat.add_0_r, window_double. now rewrite Hv.
Qed.

Lemma rotate_multiply_loop_correct v fuel :
  forall j res,
    length v = n -> (j <= k)%nat -> (k - j <= fuel)%nat -> reduced v j res ->
    exists res', rotate_multiply_loop fuel (Z.of_nat (2 ^ j)) res = Some res' /\
                 reduced v k res'.
Proof.
  induction fuel as [|fuel IH]; intros j res Hv Hj Hfuel Hres.
  - assert (j = k) by lia. subst j. exists res. split; [|exact Hres].
    simpl. rewrite slotCount_nat.
    now rewrite Z.ltb_irrefl.
  - simpl. rewrite slotCount_nat.
    destruct (Z.of_nat (2 ^ j) <? Z.of_nat (2 ^ k)) eqn:Hlt.
    + apply Z.ltb_lt in Hlt. apply Nat2Z.inj_lt in Hlt.
      apply Nat.pow_lt_mono_r_iff in Hlt; [|lia].
      assert (Hle : (2 ^ S j <= 2 ^ k)%nat) by (apply Nat.pow_le_mono_r; lia).
      rewrite wrap_int_small.
      2:{ pose proof slotCount_nat. simpl in Hle. unfold INT_MAX in *. lia. }
      replace (Z.of_nat (2 ^ j) * 2) with (Z.of_nat (2 ^ S j))
        by (simpl; lia).
      apply IH; auto; try lia.
      now apply reduced_step.
    + apply Z.ltb_ge in Hlt. apply Nat2Z.inj_le in Hlt.
      apply Nat.pow_le_mono_r_iff in Hlt; [|lia].
      assert (j = k) by lia. subst j. exists res. split; [reflexivity|exact Hres].
Qed.

(** The loop leaves the conjunction of all slots in every slot. *)
Lemma rotate_and_multiply_decodes (res : CTile) :
  Forall bit (decryptDecodeInt res) ->
  exists res',
    rotate_and_multiply res = Some res' /\
    decryptDecodeInt res' = repeat (Z.b2z (all_ones (decryptDecodeInt res))) n.
Proof.
  intros Hbits. set (v := decryptDecodeInt res).
  assert (Hv : length v = n) by apply dec_length.
  destruct (rotate_multiply_loop_correct v n 0 res) as [res' [Hrun Hred]];
    auto; try lia.
  { rewrite slots_nat. pose proof (Nat.pow_gt_lin_r 2 k). lia. }
  { intros i Hi. apply window_one; [lia|].
    fold v in Hbits. rewrite Forall_forall in Hbits. apply Hbits, nth_In. lia. }
  exists res'. split; [exact Hrun|].
  apply nth_ext with (d := 0) (d' := 0).
  - now rewrite dec_length, repeat_length.
  - intros i Hi. rewrite dec_length in Hi. fold n in Hi.
    rewrite (Hred i Hi), nth_repeat_in by exact Hi.
    rewrite <- slots_nat, <- Hv. f_equal. apply window_full. lia.
Qed.

(** C4.  When the slot count is a power of two and every slot of a
    ciphertext decodes to 0 or 1, the rotate-and-multiply loop comes back
    and leaves a ciphertext in which every slot decodes to the product (the
    logical AND) of all original slots: all ones if every original slot was
    1, all zeros otherwise. *)
Theorem rotate_and_multiply_correct (res : CTile) :
  Forall bit (decryptDecodeInt res) ->
  exists res',
    rotate_and_multiply res = Some res' /\
    decryptDecodeInt res' =
      repeat (fold_right Z.mul 1 (decryptDecodeInt res)) (Z.to_nat slotCount) /\
    (Forall (fun x => x = 1) (decryptDecodeInt res) ->
     decryptDecodeInt res' = repeat 1 (Z.to_nat slotCount)) /\
    (~ Forall (fun x => x = 1) (decryptDecodeInt res) ->
     decryptDecodeInt res' = repeat 0 (Z.to_nat slotCount)).
Proof.
  intros Hbits.
  destruct (rotate_and_multiply_decodes res Hbits) as [res' [Hrun Hdec]].
  exists res'. split; [exact Hrun|].
  fold n. rewrite Hdec. split; [|split].
  - now rewrite product_bits.
  - intros H. apply all_ones_Forall in H. now rewrite H.
  - intros H. destruct (all_ones (decryptDecodeInt res)) eqn:E; [|reflexivity].
    apply all_ones_Forall in E. contradiction.
Qed.

End ReductionFacts.

(** ** The record matcher *)

Lemma slotwise_repeat_l f c b n :
  length b = n -> slotwise f (repeat c n) b = map (f c) b.
Proof.
  revert n; induction b as [|y b IH]; intros [|n] H; simpl in *; try lia; auto.
  f_equal. apply IH. lia.
Qed.

Lemma vmul_ones p n v : normal p n v -> vmul p (repeat 1 n) v = v.
Proof.
  intros [Hl Hr]. unfold vmul. rewrite slotwise_repeat_l by exact Hl.
  rewrite <- (map_mod_id p v Hr) at 2.
  apply map_ext. intros y. now rewrite Z.mul_1_l.
Qed.

Lemma vmul_zeros p n v : length v = n -> vmul p (repeat 0 n) v = repeat 0 n.
Proof.
  intros Hl. unfold vmul. rewrite slotwise_repeat_l by exact Hl.
  subst n. rewrite (map_ext _ (fun _ => 0))
    by (intros y; now rewrite Z.mul_0_l, Zmod_0_l).
  induction v as [|y v IH]; simpl; congruence.
Qed.

Lemma indicator_bits a b : Forall bit (indicator a b).
Proof.
  unfold indicator. apply slotwise_Forall. intros x y.
  unfold bit. destruct (x =? y); auto.
Qed.

Lemma Forall_ones_repeat (v : list Z) :
  Forall (fun x => x = 1) v <-> v = repeat 1 (length v).
Proof.
  split.
  - induction 1 as [|x v Hx _ IH]; simpl; congruence.
  - intros H. rewrite H. apply Forall_forall. intros x Hx.
    now apply repeat_spec in Hx.
Qed.

(** *** The matcher sees ciphertexts only through the capability *)

Section Oblivious.

Context {he : HeContext}.

(** A relation between ciphertexts that every operation of the capability
    carries from its arguments to its result.  The relation is free to tell
    apart, or to ignore, what the ciphertexts decrypt to. *)
Definition respected (R : CTile -> CTile -> Prop) : Prop :=
  (forall a a' b b', R a a' -> R b b' -> R (add a b) (add a' b')) /\
  (forall a a' b b', R a a' -> R b b' -> R (sub a b) (sub a' b')) /\
  (forall a a' b b', R a a' -> R b b' -> R (multiply a b) (multiply a' b')) /\
  (forall a a', R a a' -> R (negate a) (negate a')) /\
  (forall a a', R a a' -> R (square a) (square a')) /\
  (forall a a' z, R a a' -> R (rotate a z) (rotate a' z)).

Variable R : CTile -> CTile -> Prop.
Hypothesis R_respected : respected R.

Definition related_opt (a b : option CTile) : Prop :=
  match a, b with
  | Some a', Some b' => R a' b'
  | None, None => True
  | _, _ => False
  end.

Definition related_state (s t : option (CTile * option CTile)) : Prop :=
  match s, t with
  | Some (c1, y1), Some (c2, y2) => R c1 c2 /\ related_opt y1 y2
  | None, None => True
  | _, _ => False
  end.

Lemma related_pow_loop fuel : forall c1 c2 y1 y2 d,
  R c1 c2 -> related_opt y1 y2 ->
  related_state (pow_loop fuel c1 y1 d) (pow_loop fuel c2 y2 d).
Proof.
  destruct R_respected as [_ [_ [Hmul [_ [Hsq _]]]]].
  induction fuel as [|fuel IH]; intros c1 c2 y1 y2 d Hc Hy; simpl;
    destruct (1 <? d); simpl; auto.
  destruct (Z.rem d 2 =? 0).
  - apply IH; auto.
  - apply IH; auto.
    destruct y1, y2; simpl in *; auto; contradiction.
Qed.

Lemma related_pow c1 c2 d : R c1 c2 -> related_opt (pow c1 d) (pow c2 d).
Proof.
  destruct R_respected as [_ [_ [Hmul _]]].
  intros Hc. unfold pow.
  pose proof (related_pow_loop (Z.to_nat d) c1 c2 None None d Hc I) as H.
  destruct (pow_loop _ c1 _ _) as [[a1 [y1|]]|],
           (pow_loop _ c2 _ _) as [[a2 [y2|]]|]; simpl in *;
    try tauto; destruct H; auto; contradiction.
Qed.

Lemma related_rotate_multiply_loop fuel : forall rot a1 a2,
  R a1 a2 ->
  related_opt (rotate_multiply_loop fuel rot a1) (rotate_multiply_loop fuel rot a2).
Proof.
  destruct R_respected as [_ [_ [Hmul [_ [_ Hrot]]]]].
  induction fuel as [|fuel IH]; intros rot a1 a2 Ha; simpl;
    destruct (rot <? slotCount); simpl; auto.
Qed.

(** Related inputs give related masks: [match_record] has no way to let a
    decrypted slot decide what it does. *)
Lemma related_match_record r1 r2 q1 q2 e1 e2 pm :
  (forall v, R (encodeEncrypt r1 v) (encodeEncrypt r2 v)) ->
  R q1 q2 -> R (fst e1) (fst e2) -> R (snd e1) (snd e2) ->
  related_opt (match_record r1 q1 e1 pm) (match_record r2 q2 e2 pm).
Proof.
  destruct R_respected as [Hadd [Hsub [Hmul [Hneg _]]]].
  intros Henc Hq Hk Hv. unfold match_record, equality_mask.
  pose proof (related_pow (sub (fst e1) q1) (sub (fst e2) q2)
                (wrap_int (pm - 1)) (Hsub _ _ _ _ Hk Hq)) as Hp.
  destruct (pow (sub (fst e1) q1) _) as [p1|],
           (pow (sub (fst e2) q2) _) as [p2|]; simpl in Hp;
    try contradiction; [|exact I].
  unfold rotate_and_multiply.
  pose proof (related_rotate_multiply_loop (Z.to_nat slotCount) 1
                (add (negate p1) (encodeEncrypt r1 (repeat 1 (Z.to_nat slotCount))))
                (add (negate p2) (encodeEncrypt r2 (repeat 1 (Z.to_nat slotCount)))))
    as Hr.
  destruct (rotate_multiply_loop _ _ (add (negate p1) _)) as [m1|],
           (rotate_multiply_loop _ _ (add (negate p2) _)) as [m2|];
    simpl in *; auto.
Qed.

End Oblivious.

Section MatcherFacts.

Context {he : HeContext}.

Variable k : nat.
Hypothesis modulus_prime : Z.prime modulus.
Hypothesis modulus_int : modulus <= INT_MAX.
Hypothesis slots_pow2 : slotCount = 2 ^ Z.of_nat k.
Hypothesis slots_int : slotCount <= INT_MAX.

Let n : nat := Z.to_nat slotCount.

Lemma all_ones_indicator (a b : list Z) :
  length a = n -> length b = n -> (all_ones (indicator a b) = true <-> a = b).
Proof.
  intros Ha Hb. rewrite all_ones_Forall, Forall_ones_repeat.
  unfold indicator at 2. rewrite slotwise_length, Ha, Hb, Nat.min_id.
  now apply indicator_all_ones.
Qed.

(** The masked ciphertext of one record. *)
Lemma match_record_decodes (r : Rand) (query : CTile) (encrypted_pair : CTile * CTile) :
  exists masked,
    match_record r query encrypted_pair modulus = Some masked /\
    decryptDecodeInt masked =
      if all_ones (indicator (decryptDecodeInt (fst encrypted_pair))
                             (decryptDecodeInt query))
      then decryptDecodeInt (snd encrypted_pair)
      else repeat 0 n.
Proof.
  unfold match_record.
  destruct (equality_mask_decodes r (fst encrypted_pair) query
              modulus_prime modulus_int) as [mask [Hmask Hind]].
  rewrite Hmask.
  destruct (rotate_and_multiply_decodes k slots_pow2 slots_int mask)
    as [res [Hres Hdec]].
  { rewrite Hind. apply indicator_bits. }
  rewrite Hres. eexists. split; [reflexivity|].
  rewrite dec_multiply, Hdec, Hind. fold n. clear Hdec.
  destruct (all_ones _); simpl.
  - apply vmul_ones. apply dec_normal.
  - apply vmul_zeros. apply dec_length.
Qed.

(** C5.  For every encrypted record the masked ciphertext of the search
    loop (the replicated all-match indicator times the encrypted value)
    decodes to the value's slot vector when query and key agree in every
    slot, and to the all-zero vector otherwise.  No plaintext branching is
    used in this selection: whatever relation between ciphertexts the
    operations of the capability respect, be it blind to the plaintexts or
    not, the matcher carries it from any related query and record to the
    masked ciphertexts, so nothing it does can hang on a decrypted slot. *)
Theorem match_record_correct (r : Rand) (query : CTile) (encrypted_pair : CTile * CTile) :
  exists masked,
    match_record r query encrypted_pair modulus = Some masked /\
    (decryptDecodeInt (fst encrypted_pair) = decryptDecodeInt query ->
     decryptDecodeInt masked = decryptDecodeInt (snd encrypted_pair)) /\
    (decryptDecodeInt (fst encrypted_pair) <> decryptDecodeInt query ->
     decryptDecodeInt masked = repeat 0 (Z.to_nat slotCount)) /\
    (forall (R : CTile -> CTile -> Prop) (r' : Rand) (query' : CTile)
            (encrypted_pair' : CTile * CTile),
       respected R ->
       (forall v, R (encodeEncrypt r v) (encodeEncrypt r' v)) ->
       R query query' ->
       R (fst encrypted_pair) (fst encrypted_pair') ->
       R (snd encrypted_pair) (snd encrypted_pair') ->
       exists masked',
         match_record r' query' encrypted_pair' modulus = Some masked' /\
         R masked masked').
Proof.
  destruct (match_record_decodes r query encrypted_pair) as [masked [Hrun Hdec]].
  exists masked. split; [exact Hrun|].
  pose proof (all_ones_indicator (decryptDecodeInt (fst encrypted_pair))
                (decryptDecodeInt query) (dec_length _) (dec_length _)) as Hiff.
  split; [|split].
  - intros H. rewrite Hdec. apply Hiff in H. now rewrite H.
  - intros H. rewrite Hdec. destruct (all_ones _); [|reflexivity].
    exfalso. apply H, Hiff. reflexivity.
  - intros R r' query' encrypted_pair' HR Henc Hq Hk Hv.
    pose proof (related_match_record R HR r r' query query'
                  encrypted_pair encrypted_pair' modulus Henc Hq Hk Hv) as Hrel.
    rewrite Hrun in Hrel.
    destruct (match_record r' query' encrypted_pair' modulus) as [masked'|];
      simpl in Hrel; [|contradiction].
    exists masked'. split; [reflexivity | exact Hrel].
Qed.

End MatcherFacts.

(** ** The decoded result does not depend on the encryption randomness *)

Section Determinism.

Context {he : HeContext}.

(** Two ciphertexts are alike when they decrypt to the same slots. *)
Definition alike (a b : CTile) : Prop := decryptDecodeInt a = decryptDecodeInt b.

Definition alike_opt (a b : option CTile) : Prop :=
  match a, b with
  | Some a', Some b' => alike a' b'
  | None, None => True
  | _, _ => False
  end.

Definition alike_state (s t : option (CTile * option CTile)) : Prop :=
  match s, t with
  | Some (c1, y1), Some (c2, y2) => alike c1 c2 /\ alike_opt y1 y2
  | None, None => True
  | _, _ => False
  end.

Definition alike_pair (a b : CTile * CTile) : Prop :=
  alike (fst a) (fst b) /\ alike (snd a) (snd b).

Definition alike_masks (a b : option (list CTile)) : Prop :=
  match a, b with
  | Some l1, Some l2 => Forall2 alike l1 l2
  | None, None => True
  | _, _ => False
  end.

Lemma alike_encodeEncrypt r1 r2 v : alike (encodeEncrypt r1 v) (encodeEncrypt r2 v).
Proof. unfold alike. now rewrite !dec_encodeEncrypt. Qed.

Lemma alike_add a1 a2 b1 b2 : alike a1 a2 -> alike b1 b2 -> alike (add a1 b1) (add a2 b2).
Proof. unfold alike. intros Ha Hb. now rewrite !dec_add, Ha, Hb. Qed.

Lemma alike_sub a1 a2 b1 b2 : alike a1 a2 -> alike b1 b2 -> alike (sub a1 b1) (sub a2 b2).
Proof. unfold alike. intros Ha Hb. now rewrite !dec_sub, Ha, Hb. Qed.

Lemma alike_multiply a1 a2 b1 b2 :
  alike a1 a2 -> alike b1 b2 -> alike (multiply a1 b1) (multiply a2 b2).
Proof. unfold alike. intros Ha Hb. now rewrite !dec_multiply, Ha, Hb. Qed.

Lemma alike_negate a1 a2 : alike a1 a2 -> alike (negate a1) (negate a2).
Proof. unfold alike. intros Ha. now rewrite !dec_negate, Ha. Qed.

Lemma alike_square a1 a2 : alike a1 a2 -> alike (square a1) (square a2).
Proof. unfold alike. intros Ha. now rewrite !dec_square, Ha. Qed.

Lemma alike_rotate a1 a2 z : alike a1 a2 -> alike (rotate a1 z) (rotate a2 z).
Proof. unfold alike. intros Ha. now rewrite !dec_rotate, Ha. Qed.

Create HintDb alike.

#[local] Hint Resolve alike_encodeEncrypt alike_add alike_sub alike_multiply
  alike_negate alike_square alike_rotate : alike.

Ltac alike_cases := simpl in *; try contradiction; auto with alike.

Lemma alike_pow_loop fuel : forall c1 c2 y1 y2 d,
  alike c1 c2 -> alike_opt y1 y2 ->
  alike_state (pow_loop fuel c1 y1 d) (pow_loop fuel c2 y2 d).
Proof.
  induction fuel as [|fuel IH]; intros c1 c2 y1 y2 d Hc Hy; simpl;
    destruct (1 <? d); simpl; auto.
  destruct (Z.rem d 2 =? 0).
  - apply IH; auto with alike.
  - apply IH; auto with alike.
    destruct y1, y2; simpl in *; auto with alike; contradiction.
Qed.

Lemma alike_pow c1 c2 d : alike c1 c2 -> alike_opt (pow c1 d) (pow c2 d).
Proof.
  intros Hc. unfold pow.
  pose proof (alike_pow_loop (Z.to_nat d) c1 c2 None None d Hc I) as H.
  destruct (pow_loop _ c1 _ _) as [[a1 [y1|]]|],
           (pow_loop _ c2 _ _) as [[a2 [y2|]]|]; simpl in *;
    try tauto; destruct H; auto with alike; contradiction.
Qed.

Lemma alike_equality_mask r1 r2 k1 k2 q1 q2 pm :
  alike k1 k2 -> alike q1 q2 ->
  alike_opt (equality_mask r1 k1 q1 pm) (equality_mask r2 k2 q2 pm).
Proof.
  intros Hk Hq. unfold equality_mask.
  pose proof (alike_pow (sub k1 q1) (sub k2 q2) (wrap_int (pm - 1))
                (alike_sub _ _ _ _ Hk Hq)) as H.
  destruct (pow (sub k1 q1) _), (pow (sub k2 q2) _); alike_cases.
Qed.

Lemma alike_rotate_multiply_loop fuel : forall rot a1 a2,
  alike a1 a2 ->
  alike_opt (rotate_multiply_loop fuel rot a1) (rotate_multiply_loop fuel rot a2).
Proof.
  induction fuel as [|fuel IH]; intros rot a1 a2 Ha; simpl;
    destruct (rot <? slotCount); simpl; auto.
  apply IH; auto with alike.
Qed.

Lemma alike_match_record r1 r2 q1 q2 e1 e2 pm :
  alike q1 q2 -> alike_pair e1 e2 ->
  alike_opt (match_record r1 q1 e1 pm) (match_record r2 q2 e2 pm).
Proof.
  intros Hq [Hk Hv]. unfold match_record.
  pose proof (alike_equality_mask r1 r2 _ _ _ _ pm Hk Hq) as H.
  destruct (equality_mask r1 _ _ _) as [m1|],
           (equality_mask r2 _ _ _) as [m2|]; alike_cases.
  pose proof (alike_rotate_multiply_loop (Z.to_nat slotCount) 1 m1 m2 H) as H'.
  unfold rotate_and_multiply.
  destruct (rotate_multiply_loop _ _ m1), (rotate_multiply_loop _ _ m2);
    alike_cases.
Qed.

Lemma alike_search rnd1 rnd2 q1 q2 pm : forall edb1 edb2 k1 k2,
  alike q1 q2 -> Forall2 alike_pair edb1 edb2 ->
  alike_masks (search rnd1 k1 q1 edb1 pm) (search rnd2 k2 q2 edb2 pm).
Proof.
  intros edb1 edb2 k1 k2 Hq Hdb. revert k1 k2.
  induction Hdb as [|e1 e2 edb1 edb2 He _ IH]; intros k1 k2; simpl.
  - constructor.
  - pose proof (alike_match_record (rnd1 k1) (rnd2 k2) _ _ _ _ pm Hq He) as H.
    destruct (match_record (rnd1 k1) _ _ _), (match_record (rnd2 k2) _ _ _);
      alike_cases.
    specialize (IH (S k1) (S k2)).
    destruct (search rnd1 _ _ edb1 _), (search rnd2 _ _ edb2 _); alike_cases.
Qed.

Lemma alike_fold_add others1 others2 : Forall2 alike others1 others2 ->
  forall m1 m2, alike m1 m2 ->
  alike (fold_left add others1 m1) (fold_left add others2 m2).
Proof.
  induction 1 as [|a b l1 l2 Hab _ IH]; intros m1 m2 Hm; simpl; auto with alike.
Qed.

Lemma report_alike v1 v2 : alike v1 v2 -> report v1 = report v2.
Proof. unfold alike, report. now intros ->. Qed.

Lemma lookup_alike_queries rnd1 rnd2 k1 k2 edb1 edb2 q1 q2 pm :
  encode modulus (Z.to_nat slotCount) (stringToAscii q1) =
  encode modulus (Z.to_nat slotCount) (stringToAscii q2) ->
  Forall2 alike_pair edb1 edb2 ->
  lookup rnd1 k1 edb1 q1 pm = lookup rnd2 k2 edb2 q2 pm.
Proof.
  intros Hq Hdb. unfold lookup.
  assert (Hquery : alike (encodeEncrypt (rnd1 k1) (stringToAscii q1))
                         (encodeEncrypt (rnd2 k2) (stringToAscii q2)))
    by (unfold alike; now rewrite !dec_encodeEncrypt).
  pose proof (alike_search rnd1 rnd2 _ _ pm edb1 edb2 (S k1) (S k2) Hquery Hdb)
    as H.
  destruct (search rnd1 _ _ _ _) as [mask1|], (search rnd2 _ _ _ _) as [mask2|];
    simpl in H; try tauto.
  destruct H as [|m1 m2 l1 l2 Hm Hl]; simpl; [reflexivity|].
  apply report_alike. now apply alike_fold_add.
Qed.

Lemma lookup_alike rnd1 rnd2 k1 k2 edb1 edb2 q pm :
  Forall2 alike_pair edb1 edb2 ->
  lookup rnd1 k1 edb1 q pm = lookup rnd2 k2 edb2 q pm.
Proof. intros H. apply lookup_alike_queries; [reflexivity | exact H]. Qed.

Lemma alike_pair_refl edb : Forall2 alike_pair edb edb.
Proof. induction edb; constructor; auto. split; reflexivity. Qed.

Lemma alike_encrypt_db rnd1 rnd2 country_db : forall k1 k2,
  Forall2 alike_pair (encrypt_db rnd1 k1 country_db) (encrypt_db rnd2 k2 country_db).
Proof.
  induction country_db as [|kv db IH]; intros k1 k2; simpl; constructor; auto.
  split; simpl; apply alike_encodeEncrypt.
Qed.

Lemma list_ascii_app s t :
  list_ascii_of_string (s ++ t) = list_ascii_of_string s ++ list_ascii_of_string t.
Proof. induction s as [|c s IH]; simpl; congruence. Qed.

Lemma encode_prefix p n v w :
  (n <= length v)%nat -> encode p n (v ++ w) = encode p n v.
Proof.
  intros H. unfold encode, pad_trunc.
  rewrite map_app, firstn_app, length_app, !length_map.
  replace (n - length v)%nat with 0%nat by lia.
  replace (n - (length v + length w))%nat with 0%nat by lia.
  simpl. now rewrite !app_nil_r.
Qed.

(** Under the contract, what a query has beyond the slot count never reaches
    the comparison: the lookup answers as for the first [slotCount]
    characters. *)
Lemma lookup_ignores_tail rnd k edb (q extra : string) pm :
  (Z.to_nat slotCount <= String.length q)%nat ->
  lookup rnd k edb (q ++ extra) pm = lookup rnd k edb q pm.
Proof.
  intros H. apply lookup_alike_queries; [|apply alike_pair_refl].
  unfold stringToAscii. rewrite list_ascii_app, map_app.
  apply encode_prefix. rewrite length_map.
  clear -H. revert H. generalize (Z.to_nat slotCount).
  induction q as [|c q IH]; intros [|m] H; simpl in *; try lia.
  specialize (IH m). lia.
Qed.

(** C9.  The decoded outcome is a function of the query and of the database
    contents alone.  Whatever randomness the encryptions of two runs draw
    ([rnd1], [rnd2], and wherever on their tapes the lookups start), a lookup
    against the same encrypted database gives the same result string, and so
    does a whole [run] over the same file. *)
Theorem lookup_deterministic (rnd1 rnd2 : nat -> Rand) :
  (forall k1 k2 encrypted_country_db query_string plaintextModulus,
     lookup rnd1 k1 encrypted_country_db query_string plaintextModulus =
     lookup rnd2 k2 encrypted_country_db query_string plaintextModulus) /\
  (forall file db_filename countryName cin plaintextModulus,
     run rnd1 file db_filename countryName cin plaintextModulus =
     run rnd2 file db_filename countryName cin plaintextModulus).
Proof.
  split.
  - intros. apply lookup_alike, alike_pair_refl.
  - intros. unfold run. destruct isModularArithmetic; simpl; [|reflexivity].
    destruct (read_csv file db_filename slotCount); try reflexivity.
    apply lookup_alike, alike_encrypt_db.
Qed.

End Determinism.

(** ** Encoding of strings *)

Lemma length_list_ascii s : length (list_ascii_of_string s) = String.length s.
Proof. induction s as [|c s IH]; simpl; congruence. Qed.

Lemma plain_char_range c :
  plain_char c = true -> int_of_char c = Z.of_nat (nat_of_ascii c) /\
                         0 < int_of_char c < 128.
Proof.
  unfold plain_char, int_of_char. intros H. apply Z.ltb_lt in H.
  destruct (Z.of_nat (nat_of_ascii c) <? 128) eqn:E.
  - apply Z.ltb_lt in E. lia.
  - pose proof (nat_ascii_bounded c). lia.
Qed.

Lemma plain_char_inj c1 c2 :
  plain_char c1 = true -> plain_char c2 = true ->
  int_of_char c1 = int_of_char c2 -> c1 = c2.
Proof.
  intros H1 H2 E.
  destruct (plain_char_range c1 H1) as [E1 _], (plain_char_range c2 H2) as [E2 _].
  rewrite E1, E2 in E. apply Nat2Z.inj in E.
  rewrite <- (ascii_nat_embedding c1), <- (ascii_nat_embedding c2). congruence.
Qed.

Lemma char_of_int_of_char c : plain_char c = true -> char_of_int (int_of_char c) = c.
Proof.
  intros H. destruct (plain_char_range c H) as [E R].
  unfold char_of_int. rewrite Z.mod_small by lia.
  rewrite E, Nat2Z.id. apply ascii_nat_embedding.
Qed.

Lemma plain_codes_inj l1 : forall l2,
  forallb plain_char l1 = true -> forallb plain_char l2 = true ->
  map int_of_char l1 = map int_of_char l2 -> l1 = l2.
Proof.
  induction l1 as [|c1 l1 IH]; intros [|c2 l2] H1 H2 E; simpl in *;
    try discriminate; auto.
  apply andb_prop in H1, H2. destruct H1, H2.
  injection E as Ec El. f_equal; [now apply plain_char_inj | now apply IH].
Qed.

Lemma plain_codes_nonzero l :
  forallb plain_char l = true -> Forall (fun x => x <> 0) (map int_of_char l).
Proof.
  induction l as [|c l IH]; simpl; intros H; constructor;
    apply andb_prop in H; destruct H as [Hc Hl]; auto.
  destruct (plain_char_range c Hc). lia.
Qed.

(** Zero padding can be told from the characters before it. *)
Lemma padding_inj l1 : forall l2 a b,
  Forall (fun x => x <> 0) l1 -> Forall (fun x => x <> 0) l2 ->
  l1 ++ repeat 0 a = l2 ++ repeat 0 b -> l1 = l2.
Proof.
  induction l1 as [|x l1 IH]; intros [|y l2] a b H1 H2 E; simpl in *; auto.
  - inversion H2; subst. destruct a; simpl in E; [discriminate|].
    injection E as E _. congruence.
  - inversion H1; subst. destruct b; simpl in E; [discriminate|].
    injection E as E _. congruence.
  - inversion H1; inversion H2; subst. injection E as -> E.
    f_equal. eapply IH; eauto.
Qed.

Section StringEncoding.

Variable p : Z.
Variable n : nat.
Hypothesis p_codes : 128 <= p.

Lemma encode_string s :
  well_formed n s = true ->
  encode p n (stringToAscii s) =
  map int_of_char (list_ascii_of_string s) ++ repeat 0 (n - String.length s).
Proof.
  unfold well_formed, plain, stringToAscii. intros H.
  apply andb_prop in H. destruct H as [Hp Hn]. apply Nat.leb_le in Hn.
  unfold encode. rewrite map_mod_id.
  - unfold pad_trunc. rewrite length_map, length_list_ascii.
    rewrite firstn_all2 by (rewrite length_map, length_list_ascii; lia).
    reflexivity.
  - apply Forall_forall. intros x Hx. apply in_map_iff in Hx.
    destruct Hx as [c [<- Hc]].
    rewrite forallb_forall in Hp.
    destruct (plain_char_range c (Hp c Hc)). unfold in_range. lia.
Qed.

Lemma encode_string_inj s t :
  well_formed n s = true -> well_formed n t = true ->
  encode p n (stringToAscii s) = encode p n (stringToAscii t) -> s = t.
Proof.
  intros Hs Ht E. rewrite !encode_string in E by assumption.
  unfold well_formed, plain in Hs, Ht.
  apply andb_prop in Hs, Ht. destruct Hs as [Hs _], Ht as [Ht _].
  apply padding_inj in E; try now apply plain_codes_nonzero.
  apply plain_codes_inj in E; auto.
  rewrite <- (string_of_list_ascii_of_string s), <- (string_of_list_ascii_of_string t).
  congruence.
Qed.

Lemma string_of_list_ascii_app l1 l2 :
  string_of_list_ascii (l1 ++ l2) =
  (string_of_list_ascii l1 ++ string_of_list_ascii l2)%string.
Proof. induction l1 as [|c l1 IH]; simpl; congruence. Qed.

(** Decoding the slots of an encoded string gives the string back, padded
    with NUL characters. *)
Lemma decode_string s :
  well_formed n s = true ->
  string_of_list_ascii (map char_of_int (encode p n (stringToAscii s))) =
  nul_padded n s.
Proof.
  intros H. rewrite encode_string by assumption.
  unfold well_formed, plain in H. apply andb_prop in H. destruct H as [Hp _].
  rewrite map_app, string_of_list_ascii_app. unfold nul_padded. f_equal.
  - rewrite map_map. rewrite <- (string_of_list_ascii_of_string s) at 2. f_equal.
    rewrite <- (map_id (list_ascii_of_string s)) at 2.
    apply map_ext_in. intros c Hc. apply char_of_int_of_char.
    rewrite forallb_forall in Hp. now apply Hp.
  - f_equal. rewrite map_repeat. reflexivity.
Qed.

End StringEncoding.

(** ** Aggregation *)

Section SumFacts.

Variable p : Z.
Variable n : nat.
Hypothesis p_pos : 0 < p.

Let zeros : list Z := repeat 0 n.

Lemma vadd_zeros_r v : normal p n v -> vadd p v zeros = v.
Proof.
  intros [Hl Hr]. unfold vadd, zeros. rewrite slotwise_repeat_r by exact Hl.
  rewrite <- (map_mod_id p v Hr) at 2.
  apply map_ext. intros x. now rewrite Z.add_0_r.
Qed.

Lemma vadd_zeros_l v : normal p n v -> vadd p zeros v = v.
Proof.
  intros [Hl Hr]. unfold vadd, zeros. rewrite slotwise_repeat_l by exact Hl.
  rewrite <- (map_mod_id p v Hr) at 2.
  apply map_ext. intros x. now rewrite Z.add_0_l.
Qed.

Lemma zeros_normal : normal p n zeros.
Proof. apply repeat_normal. unfold in_range. lia. Qed.

Lemma fold_zeros zs : Forall (eq zeros) zs ->
  forall acc, normal p n acc -> fold_left (vadd p) zs acc = acc.
Proof.
  induction 1 as [|z zs <- _ IH]; intros acc Hacc; simpl; [reflexivity|].
  rewrite vadd_zeros_r by assumption. now apply IH.
Qed.

Lemma vsum_zeros zs : zs <> [] -> Forall (eq zeros) zs -> vsum p zs = zeros.
Proof.
  destruct zs as [|z zs]; [congruence|]. intros _ H.
  inversion H as [|? ? <- Hzs]; subst. simpl.
  apply fold_zeros; [assumption | apply zeros_normal].
Qed.

Lemma vsum_single zs1 v zs2 :
  normal p n v -> Forall (eq zeros) zs1 -> Forall (eq zeros) zs2 ->
  vsum p (zs1 ++ v :: zs2) = v.
Proof.
  intros Hv H1 H2. destruct zs1 as [|z zs1]; simpl.
  - now apply fold_zeros.
  - inversion H1 as [|? ? <- Hzs]; subst.
    rewrite fold_left_app. simpl.
    rewrite (fold_zeros zs1 Hzs) by apply zeros_normal.
    rewrite vadd_zeros_l by assumption. now apply fold_zeros.
Qed.

End SumFacts.

(** ** Trial division, to check that a modulus is prime *)

Fixpoint no_divisor (p : Z) (fuel : nat) (d : Z) : bool :=
  match fuel with
  | O => true
  | S fuel' => negb (p mod d =? 0) && no_divisor p fuel' (d + 1)
  end.

Definition is_prime (p : Z) : bool :=
  (1 <? p) && no_divisor p (Z.to_nat (p - 2)) 2.

Lemma no_divisor_sound p fuel : forall d m,
  0 < d -> no_divisor p fuel d = true ->
  d <= m < d + Z.of_nat fuel -> ~ (m | p).
Proof.
  induction fuel as [|fuel IH]; intros d m Hd H Hm; [lia|].
  simpl in H. apply andb_prop in H. destruct H as [Hnd Hrest].
  destruct (Z.eq_dec m d) as [->|Hne].
  - intros Hdiv. apply Z.mod_divide in Hdiv; [|lia].
    rewrite Hdiv in Hnd. discriminate.
  - apply (IH (d + 1)); auto; lia.
Qed.

Lemma is_prime_sound p : is_prime p = true -> Z.prime p.
Proof.
  unfold is_prime. intros H. apply andb_prop in H. destruct H as [H1 H2].
  apply Z.ltb_lt in H1. split; [exact H1|].
  intros m Hm. apply (no_divisor_sound p (Z.to_nat (p - 2)) 2 m); auto; lia.
Qed.

(** ** The lookup, end to end *)

Section LookupFacts.

Context {he : HeContext}.

Variable k : nat.
Hypothesis modulus_prime : Z.prime modulus.
Hypothesis modulus_codes : 128 <= modulus.
Hypothesis modulus_int : modulus <= INT_MAX.
Hypothesis slots_pow2 : slotCount = 2 ^ Z.of_nat k.
Hypothesis slots_int : slotCount <= INT_MAX.

Let n : nat := Z.to_nat slotCount.
Let zeros : list Z := repeat 0 n.

(** What the mask of one record decodes to. *)
Definition masked_vector (query_string : string) (kv : string * string) : list Z :=
  if String.eqb (fst kv) query_string
  then encode modulus n (stringToAscii (snd kv))
  else zeros.

Lemma search_decodes rnd query query_string :
  decryptDecodeInt query = encode modulus n (stringToAscii query_string) ->
  well_formed n query_string = true ->
  forall country_db k0 k1,
    well_formed_db n country_db = true ->
    exists mask,
      search rnd k1 query (encrypt_db rnd k0 country_db) modulus = Some mask /\
      map decryptDecodeInt mask = map (masked_vector query_string) country_db.
Proof.
  intros Hq Hwq. induction country_db as [|kv db IH]; intros k0 k1 Hwf.
  - exists []. split; reflexivity.
  - simpl in Hwf. apply andb_prop in Hwf. destruct Hwf as [Hkv Hdb].
    apply andb_prop in Hkv. destruct Hkv as [Hkey Hval].
    simpl.
    destruct (match_record_decodes k modulus_prime modulus_int slots_pow2 slots_int
                (rnd k1) query
                (encodeEncrypt (rnd k0) (stringToAscii (fst kv)),
                 encodeEncrypt (rnd (S k0)) (stringToAscii (snd kv))))
      as [masked [Hrun Hmasked]].
    rewrite Hrun.
    destruct (IH (S (S k0)) (S k1) Hdb) as [mask [Hmask Hdec]].
    rewrite Hmask. eexists. split; [reflexivity|].
    simpl. rewrite Hdec. f_equal.
    simpl in Hmasked. rewrite !dec_encodeEncrypt, Hq in Hmasked.
    fold n in Hmasked. rewrite Hmasked. unfold masked_vector.
    pose proof (all_ones_indicator
                  (encode modulus n (stringToAscii (fst kv)))
                  (encode modulus n (stringToAscii query_string))
                  (pad_trunc_length _ _) (pad_trunc_length _ _)) as Hiff.
    destruct (String.eqb (fst kv) query_string) eqn:E.
    + apply String.eqb_eq in E.
      assert (A : all_ones (indicator
                    (encode modulus n (stringToAscii (fst kv)))
                    (encode modulus n (stringToAscii query_string))) = true)
        by (apply Hiff; now rewrite E).
      now rewrite A.
    + apply String.eqb_neq in E.
      destruct (all_ones _) eqn:A; [|reflexivity].
      exfalso. apply E.
      apply (encode_string_inj modulus n modulus_codes); auto.
      now apply Hiff.
Qed.

Lemma fold_add_decodes others : forall mask0,
  decryptDecodeInt (fold_left add others mask0) =
  fold_left (vadd modulus) (map decryptDecodeInt others) (decryptDecodeInt mask0).
Proof.
  induction others as [|m others IH]; intros mask0; simpl; [reflexivity|].
  now rewrite IH, dec_add.
Qed.

Lemma aggregate_decodes mask :
  mask <> [] ->
  exists value, aggregate mask = Ok value /\
                decryptDecodeInt value = vsum modulus (map decryptDecodeInt mask).
Proof.
  destruct mask as [|mask0 others]; [congruence|]. intros _.
  eexists. split; [reflexivity|]. apply fold_add_decodes.
Qed.

Lemma slots_positive : exists n', n = S n'.
Proof.
  unfold n. rewrite slots_pow2.
  assert (0 < 2 ^ Z.of_nat k) by (apply Z.pow_pos_nonneg; lia).
  exists (Z.to_nat (2 ^ Z.of_nat k - 1)). lia.
Qed.

Lemma report_zeros value :
  decryptDecodeInt value = zeros -> report value = Ok not_found_message.
Proof.
  intros H. unfold report. rewrite H. unfold zeros.
  destruct slots_positive as [n' ->]. reflexivity.
Qed.

Lemma report_value value s :
  decryptDecodeInt value = encode modulus n (stringToAscii s) ->
  well_formed n s = true -> s <> EmptyString ->
  report value = Ok (nul_padded n s).
Proof.
  intros H Hwf Hne. unfold report.
  rewrite H, (decode_string modulus n modulus_codes s Hwf).
  destruct s as [|c s]; [congruence|].
  unfold nul_padded. simpl.
  destruct (Ascii.eqb c zero) eqn:E; [|reflexivity].
  apply Ascii.eqb_eq in E. subst c.
  unfold well_formed, plain in Hwf. simpl in Hwf. discriminate.
Qed.

Lemma masked_zeros query_string db :
  ~ In query_string (map fst db) ->
  Forall (eq zeros) (map (masked_vector query_string) db).
Proof.
  induction db as [|kv db IH]; simpl; intros H; constructor.
  - unfold masked_vector. destruct (String.eqb (fst kv) query_string) eqn:E; auto.
    apply String.eqb_eq in E. tauto.
  - apply IH. tauto.
Qed.

(** C1, as the program has it.  Let the modulus be a prime of at least 128,
    the slot count a power of two, and keys, values and query strings of
    7-bit characters other than NUL that fit the slot count.  If exactly one
    record has the query as its key and its value is not empty, the lookup
    returns that value followed by NUL characters up to the slot count.  If
    the database is not empty and no key is the query, the aggregated
    ciphertext decodes to all zeros and the lookup returns the not-found
    message. *)
Theorem lookup_correct (rnd : nat -> Rand) (k0 k1 : nat)
  (country_db : list (string * string)) (query_string : string) :
  well_formed_db (Z.to_nat slotCount) country_db = true ->
  well_formed (Z.to_nat slotCount) query_string = true ->
  (forall pre value post,
     country_db = pre ++ (query_string, value) :: post ->
     ~ In query_string (map fst pre) -> ~ In query_string (map fst post) ->
     value <> EmptyString ->
     lookup rnd k1 (encrypt_db rnd k0 country_db) query_string modulus =
       Ok (nul_padded (Z.to_nat slotCount) value)) /\
  (country_db <> [] -> ~ In query_string (map fst country_db) ->
     (exists mask value,
        search rnd (S k1) (encodeEncrypt (rnd k1) (stringToAscii query_string))
               (encrypt_db rnd k0 country_db) modulus = Some mask /\
        aggregate mask = Ok value /\
        decryptDecodeInt value = repeat 0 (Z.to_nat slotCount)) /\
     lookup rnd k1 (encrypt_db rnd k0 country_db) query_string modulus =
       Ok not_found_message).
Proof.
  intros Hdb Hq. fold n in Hdb, Hq |- *.
  assert (Hp : 0 < modulus) by lia.
  destruct (search_decodes rnd
              (encodeEncrypt (rnd k1) (stringToAscii query_string)) query_string
              (dec_encodeEncrypt _ _) Hq country_db k0 (S k1) Hdb)
    as [mask [Hsearch Hdec]].
  split.
  - intros pre value post Hsplit Hpre Hpost Hvalue.
    assert (Hval : well_formed n value = true).
    { rewrite Hsplit in Hdb. unfold well_formed_db in Hdb.
      rewrite forallb_app in Hdb. apply andb_prop in Hdb. destruct Hdb as [_ Hdb].
      simpl in Hdb. apply andb_prop in Hdb. destruct Hdb as [Hkv _].
      apply andb_prop in Hkv. tauto. }
    destruct (aggregate_decodes mask) as [value' [Hagg Hsum]].
    { intros ->. subst country_db. destruct pre; discriminate. }
    unfold lookup. rewrite Hsearch, Hagg.
    apply report_value; auto.
    rewrite Hsum, Hdec, Hsplit, map_app. simpl.
    unfold masked_vector at 2. simpl. rewrite String.eqb_refl.
    apply (vsum_single modulus n Hp).
    + apply encode_normal. exact Hp.
    + now apply masked_zeros.
    + now apply masked_zeros.
  - intros Hne Hnone.
    destruct (aggregate_decodes mask) as [value' [Hagg Hsum]].
    { intros ->. destruct country_db; [congruence|discriminate]. }
    assert (Hzero : decryptDecodeInt value' = zeros).
    { rewrite Hsum, Hdec. apply (vsum_zeros modulus n Hp).
      - destruct country_db; [congruence|discriminate].
      - now apply masked_zeros. }
    split.
    + exists mask, value'. auto.
    + unfold lookup. rewrite Hsearch, Hagg. now apply report_zeros.
Qed.

End LookupFacts.

(** ** Reading the file *)

Lemma scan_length delim s : forall e t,
  scan delim s = (e, Some t) -> (String.length t < String.length s)%nat.
Proof.
  induction s as [|c s IH]; intros e t H; simpl in H; [discriminate|].
  destruct (Ascii.eqb c delim).
  - injection H as _ <-. simpl. lia.
  - destruct (scan delim s) as [e' r'] eqn:E. injection H as _ ->.
    specialize (IH e' t eq_refl). simpl. lia.
Qed.

(** One [getline] splits off the first field. *)
Lemma fields_scan delim c s :
  fields delim (String c s) =
  let (e, r) := scan delim (String c s) in
  e :: match r with
       | None => []
       | Some t => fields delim t
       end.
Proof.
  revert c. induction s as [|c' s IH]; intros c.
  - simpl. destruct (Ascii.eqb c delim); reflexivity.
  - specialize (IH c'). cbn [fields scan] in *.
    destruct (Ascii.eqb c delim); [reflexivity|].
    destruct (Ascii.eqb c' delim).
    + reflexivity.
    + destruct (scan delim s) as [e r]. rewrite IH. reflexivity.
Qed.

Lemma getline_loop_fields delim fuel : forall s,
  (String.length s < fuel)%nat ->
  getline_loop fuel (Some s) delim = fields delim s.
Proof.
  induction fuel as [|fuel IH]; intros s H; [lia|].
  destruct s as [|c s]; [reflexivity|].
  cbn [getline_loop getline]. rewrite fields_scan.
  destruct (scan delim (String c s)) as [e r] eqn:E.
  f_equal. destruct r as [t|].
  - apply IH. apply scan_length in E. lia.
  - destruct fuel; reflexivity.
Qed.

(** The fuel of [getline_all] is enough: it computes [fields]. *)
Lemma getline_all_fields s delim : getline_all s delim = fields delim s.
Proof. unfold getline_all. apply getline_loop_fields. lia. Qed.

Lemma fields_nonempty delim s : s <> EmptyString -> fields delim s <> [].
Proof.
  destruct s as [|c s]; [congruence|]. intros _. simpl.
  destruct (Ascii.eqb c delim); [discriminate|].
  destruct (fields delim s); discriminate.
Qed.

(** A line has a second field exactly when some delimiter in it is followed
    by at least one more character. *)
Lemma fields_two delim s :
  (2 <= length (fields delim s))%nat <->
  exists a b, s = (a ++ String delim b)%string /\ b <> EmptyString.
Proof.
  split.
  - induction s as [|c s IH]; simpl; [lia|].
    destruct (Ascii.eqb c delim) eqn:E.
    + apply Ascii.eqb_eq in E. subst c. intros H.
      exists EmptyString, s. split; [reflexivity|].
      intros ->. simpl in H. lia.
    + intros H. destruct (fields delim s) as [|f fs] eqn:F; simpl in H; [lia|].
      destruct (IH H) as [a [b [-> Hb]]].
      exists (String c a), b. split; [reflexivity | exact Hb].
  - intros [a [b [-> Hb]]]. induction a as [|c a IH].
    + simpl. rewrite Ascii.eqb_refl. simpl.
      pose proof (fields_nonempty delim b Hb).
      destruct (fields delim b); [congruence | simpl; lia].
    + simpl. destruct (Ascii.eqb c delim).
      * simpl. destruct (fields delim (a ++ String delim b)); simpl in *; lia.
      * destruct (fields delim (a ++ String delim b)); simpl in *; lia.
Qed.

Lemma fields_head_length delim s : forall f fs,
  fields delim s = f :: fs -> (String.length f <= String.length s)%nat.
Proof.
  induction s as [|c s IH]; intros f fs H; simpl in H; [discriminate|].
  destruct (Ascii.eqb c delim).
  - injection H as <- _. simpl. lia.
  - destruct (fields delim s) as [|f' fs'].
    + injection H as <- _. simpl. lia.
    + injection H as <- _. specialize (IH f' fs' eq_refl). simpl. lia.
Qed.

Lemma too_long_spec s maxLen :
  0 <= maxLen <= INT_MAX ->
  too_long s maxLen = true <-> Z.of_nat (String.length s) > maxLen.
Proof.
  intros H. unfold too_long, size_t_of_int, INT_MAX in *.
  rewrite Z.mod_small by lia. rewrite Z.gtb_ltb, Z.ltb_lt. lia.
Qed.

Section ReadCsv.

Variable maxLen : Z.
Hypothesis maxLen_int : 0 <= maxLen <= INT_MAX.

Lemma read_row_spec line :
  two_fields line = true ->
  (oversized maxLen (row_pair line) /\ exists msg, read_row line maxLen = Throw msg) \/
  (~ oversized maxLen (row_pair line) /\ read_row line maxLen = Ok (row_pair line)).
Proof.
  unfold two_fields, read_row, row_pair, oversized.
  rewrite getline_all_fields.
  destruct (fields "," line) as [|row0 [|row1 rest]]; simpl;
    try discriminate. intros _.
  pose proof (too_long_spec row0 maxLen maxLen_int) as H0.
  pose proof (too_long_spec row1 maxLen maxLen_int) as H1.
  destruct (too_long row0 maxLen).
  - left. split; [left; now apply H0 | eexists; reflexivity].
  - destruct (too_long row1 maxLen).
    + left. split; [right; now apply H1 | eexists; reflexivity].
    + right. split; [|reflexivity].
      intros [H|H]; [apply H0 in H | apply H1 in H]; discriminate.
Qed.

Lemma read_rows_spec lines : forall dataset,
  forallb two_fields lines = true ->
  (Exists (oversized maxLen) (map row_pair lines) /\
   exists msg, read_rows lines maxLen dataset = Throw msg) \/
  (~ Exists (oversized maxLen) (map row_pair lines) /\
   read_rows lines maxLen dataset = Ok (dataset ++ map row_pair lines)).
Proof.
  induction lines as [|line lines IH]; intros dataset H; simpl.
  - right. split; [intros E; inversion E | now rewrite app_nil_r].
  - simpl in H. apply andb_prop in H. destruct H as [Hline Hlines].
    destruct (read_row_spec line Hline) as [[Hbig [msg ->]] | [Hok ->]].
    + left. split; [now constructor | eexists; reflexivity].
    + destruct (IH (dataset ++ [row_pair line]) Hlines)
        as [[Hbig Hthrow] | [Hnone Hrun]].
      * left. split; [now apply Exists_cons_tl | exact Hthrow].
      * right. split.
        -- intros E. inversion E; subst; contradiction.
        -- rewrite Hrun, <- app_assoc. reflexivity.
Qed.

(** [read_csv] against the pairs of the file, for any file whose lines all
    have two fields. *)
Lemma read_csv_file_pairs (content filename : string) :
  forallb two_fields (file_lines content) = true ->
  ((exists msg, read_csv (Some content) filename maxLen = Throw msg) <->
   Exists (oversized maxLen) (file_pairs content)) /\
  (~ Exists (oversized maxLen) (file_pairs content) ->
   read_csv (Some content) filename maxLen = Ok (file_pairs content)).
Proof.
  intros H. unfold read_csv, file_pairs. rewrite getline_all_fields.
  fold (file_lines content).
  destruct (read_rows_spec (file_lines content) [] H)
    as [[Hbig [msg Hthrow]] | [Hnone Hrun]].
  - split.
    + split; [intros _; exact Hbig | intros _; now exists msg].
    + intros Hno. contradiction.
  - split.
    + split; [|intros Hbig; contradiction].
      intros [msg Hthrow]. rewrite Hrun in Hthrow. discriminate.
    + intros _. exact Hrun.
Qed.

End ReadCsv.

Lemma read_rows_defined lines : forall maxLen dataset,
  forallb two_fields lines = true -> read_rows lines maxLen dataset <> Undefined.
Proof.
  induction lines as [|line lines IH]; intros maxLen dataset H; simpl;
    [discriminate|].
  simpl in H. apply andb_prop in H. destruct H as [Hline Hlines].
  unfold two_fields in Hline. unfold read_row.
  rewrite getline_all_fields.
  destruct (fields "," line) as [|row0 [|row1 rest]]; simpl in *;
    try discriminate.
  destruct (too_long row0 maxLen); [discriminate|].
  destruct (too_long row1 maxLen); [discriminate|].
  now apply IH.
Qed.

(** C10, as the program has it.  [read_csv] reads [row[0]] and [row[1]]
    without looking at the size of [row].  A line has two fields exactly when
    one of its commas is followed by at least one more character; when every
    line of the file is like that, no index is out of range.  A line that is
    not like that, and no longer than the bound, makes an index run out of
    range. *)
Theorem read_csv_in_bounds :
  (forall line,
     two_fields line = true <->
     exists a b, line = (a ++ String ","%char b)%string /\ b <> EmptyString) /\
  (forall content filename maxLen,
     forallb two_fields (file_lines content) = true ->
     read_csv (Some content) filename maxLen <> Undefined) /\
  (forall line maxLen,
     0 <= maxLen <= INT_MAX ->
     Z.of_nat (String.length line) <= maxLen ->
     two_fields line = false ->
     read_row line maxLen = Undefined).
Proof.
  split; [|split].
  - intros line. unfold two_fields. rewrite Nat.leb_le.
    apply fields_two.
  - intros content filename maxLen H. unfold read_csv.
    rewrite getline_all_fields. now apply read_rows_defined.
  - intros line maxLen Hmax Hlen H. unfold two_fields in H.
    apply Nat.leb_gt in H. unfold read_row.
    rewrite getline_all_fields.
    destruct (fields ","%char line) as [|row0 [|row1 rest]] eqn:F; simpl in *;
      try lia; [reflexivity|].
    pose proof (fields_head_length _ _ _ _ F) as Hrow0.
    destruct (too_long row0 maxLen) eqn:T; [|reflexivity].
    apply too_long_spec in T; [lia | exact Hmax].
Qed.

(** ** The start-up check *)

Section Setup.

Context {he : HeContext}.

(** C6, as the program has it.  The assertion of [main] stops the program,
    before the database is read or encrypted, whenever the plaintext modulus
    is below 127, and lets every modulus of at least 128 pass to [run], prime
    or not: the program has no primality check of its own. *)
Theorem setup_check_correct (rnd : nat -> Rand) (file : option string)
  (db_filename countryName cin : string) (plaintextModulus : Z) :
  (plaintextModulus < 127 ->
   setup_check plaintextModulus = false /\
   main rnd file db_filename countryName cin plaintextModulus =
     Throw "always_assert(plaintextModulus >= 127)") /\
  (128 <= plaintextModulus ->
   setup_check plaintextModulus = true /\
   main rnd file db_filename countryName cin plaintextModulus =
     run rnd file db_filename countryName cin plaintextModulus).
Proof.
  unfold main, setup_check. split; intros H.
  - assert (E : (plaintextModulus >=? 127) = false)
      by (rewrite Z.geb_leb; apply Z.leb_gt; lia).
    rewrite E. split; reflexivity.
  - assert (E : (plaintextModulus >=? 127) = true)
      by (rewrite Z.geb_leb; apply Z.leb_le; lia).
    rewrite E. split; reflexivity.
Qed.

End Setup.

(** * Concrete runs

    The program on the configuration of [main] (modulus 257, 32 slots), with
    the capability [Clear.he257]. *)

Module Runs.

Import Clear.

Lemma bits_check v :
  forallb (fun x => (x =? 0) || (x =? 1)) v = true -> Forall bit v.
Proof.
  intros H. apply Forall_forall. intros x Hx.
  rewrite forallb_forall in H. specialize (H x Hx).
  apply orb_prop in H. unfold bit. destruct H as [H|H]; apply Z.eqb_eq in H; auto.
Qed.

Lemma prime_257 : Z.prime 257.
Proof. apply is_prime_sound. vm_compute. reflexivity. Qed.

Lemma int_257 : 257 <= INT_MAX.
Proof. unfold INT_MAX. lia. Qed.

Lemma slots_32 : 32 = 2 ^ Z.of_nat 5.
Proof. reflexivity. Qed.

Lemma int_32 : 32 <= INT_MAX.
Proof. unfold INT_MAX. lia. Qed.

Definition tile (v : list Z) : @CTile he257 := @encodeEncrypt he257 0%nat v.

Definition countries : list (string * string) :=
  [("Norway", "Oslo"); ("Sweden", "Stockholm")]%string.

Definition countries_csv : string :=
  ("Norway,Oslo" ++ nl ++ "Sweden,Stockholm" ++ nl)%string.

Definition key32 : string := "abcdefghijklmnopqrstuvwxyzABCDEF".

Lemma pow_correct_witness :
  1 <= 256 /\
  exists ctile',
    @pow he257 (tile [3; 0; 256; 5]) 256 = Some ctile' /\
    @decryptDecodeInt he257 ctile' =
      map (fun x => x ^ 256 mod 257) (@decryptDecodeInt he257 (tile [3; 0; 256; 5])).
Proof.
  split; [lia|]. apply (@pow_correct he257 (tile [3; 0; 256; 5]) 256). lia.
Defined.

Lemma equality_mask_correct_witness :
  Z.prime 257 /\ 257 <= INT_MAX /\
  exists mask,
    @equality_mask he257 7%nat (tile (stringToAscii "Norway"))
                   (tile (stringToAscii "Norwaz")) 257 = Some mask /\
    (forall i, (i < Z.to_nat 32)%nat ->
       nth i (@decryptDecodeInt he257 mask) 0 =
       if nth i (@decryptDecodeInt he257 (tile (stringToAscii "Norway"))) 0 =?
          nth i (@decryptDecodeInt he257 (tile (stringToAscii "Norwaz"))) 0
       then 1 else 0) /\
    (@decryptDecodeInt he257 mask = repeat 1 (Z.to_nat 32) <->
     @decryptDecodeInt he257 (tile (stringToAscii "Norway")) =
     @decryptDecodeInt he257 (tile (stringToAscii "Norwaz"))).
Proof.
  split; [exact prime_257|]. split; [exact int_257|].
  apply (@equality_mask_correct he257 7%nat (tile (stringToAscii "Norway"))
           (tile (stringToAscii "Norwaz")) prime_257 int_257).
Defined.

Lemma rotate_and_multiply_correct_witness :
  32 = 2 ^ Z.of_nat 5 /\ 32 <= INT_MAX /\
  Forall bit (@decryptDecodeInt he257 (tile [1; 1; 0; 1])) /\
  exists res',
    @rotate_and_multiply he257 (tile [1; 1; 0; 1]) = Some res' /\
    @decryptDecodeInt he257 res' =
      repeat (fold_right Z.mul 1 (@decryptDecodeInt he257 (tile [1; 1; 0; 1])))
             (Z.to_nat 32) /\
    (Forall (fun x => x = 1) (@decryptDecodeInt he257 (tile [1; 1; 0; 1])) ->
     @decryptDecodeInt he257 res' = repeat 1 (Z.to_nat 32)) /\
    (~ Forall (fun x => x = 1) (@decryptDecodeInt he257 (tile [1; 1; 0; 1])) ->
     @decryptDecodeInt he257 res' = repeat 0 (Z.to_nat 32)).
Proof.
  split; [exact slots_32|]. split; [exact int_32|].
  assert (H : Forall bit (@decryptDecodeInt he257 (tile [1; 1; 0; 1])))
    by (apply bits_check; reflexivity).
  split; [exact H|].
  apply (@rotate_and_multiply_correct he257 5%nat slots_32 int_32
           (tile [1; 1; 0; 1]) H).
Defined.

(** Ciphertexts of [he257] that were made with the same randomness, whatever
    they decrypt to. *)
Definition same_trace (a b : @CTile he257) : Prop := snd a = snd b.

Lemma same_trace_respected : @respected he257 same_trace.
Proof.
  unfold respected, same_trace. simpl.
  repeat split; intros; simpl; congruence.
Qed.

Lemma match_record_correct_witness :
  Z.prime 257 /\ 257 <= INT_MAX /\ 32 = 2 ^ Z.of_nat 5 /\ 32 <= INT_MAX /\
  @respected he257 same_trace /\
  exists masked,
    @match_record he257 7%nat (tile (stringToAscii "Norway"))
       (tile (stringToAscii "Norway"), tile (stringToAscii "Oslo")) 257 =
      Some masked /\
    (@decryptDecodeInt he257 (tile (stringToAscii "Norway")) =
     @decryptDecodeInt he257 (tile (stringToAscii "Norway")) ->
     @decryptDecodeInt he257 masked =
     @decryptDecodeInt he257 (tile (stringToAscii "Oslo"))) /\
    (exists masked',
       @match_record he257 7%nat (tile (stringToAscii "Sweden"))
         (tile (stringToAscii "Norway"), tile (stringToAscii "Bergen")) 257 =
         Some masked' /\
       same_trace masked masked').
Proof.
  split; [exact prime_257|]. split; [exact int_257|].
  split; [exact slots_32|]. split; [exact int_32|].
  split; [exact same_trace_respected|].
  destruct (@match_record_correct he257 5%nat prime_257 int_257 slots_32 int_32
              7%nat (tile (stringToAscii "Norway"))
              (tile (stringToAscii "Norway"), tile (stringToAscii "Oslo")))
    as [masked [Hrun [Hyes [_ Hblind]]]].
  exists masked. split; [exact Hrun|]. split; [exact Hyes|].
  apply (Hblind same_trace 7%nat (tile (stringToAscii "Sweden"))
           (tile (stringToAscii "Norway"), tile (stringToAscii "Bergen"))
           same_trace_respected);
    intros; reflexivity.
Defined.

Lemma codes_257 : 128 <= 257.
Proof. lia. Qed.

Lemma lookup_correct_witness :
  Z.prime 257 /\ 128 <= 257 /\ 257 <= INT_MAX /\
  32 = 2 ^ Z.of_nat 5 /\ 32 <= INT_MAX /\
  well_formed_db 32 countries = true /\
  well_formed 32 "Norway" = true /\ well_formed 32 "France" = true /\
  @lookup he257 tape0 4 (@encrypt_db he257 tape0 0 countries) "Norway" 257 =
    Ok (nul_padded 32 "Oslo") /\
  @lookup he257 tape0 4 (@encrypt_db he257 tape0 0 countries) "France" 257 =
    Ok not_found_message.
Proof.
  split; [exact prime_257|]. split; [exact codes_257|]. split; [exact int_257|].
  split; [exact slots_32|]. split; [exact int_32|].
  split; [reflexivity|]. split; [reflexivity|]. split; [reflexivity|].
  split.
  - apply (proj1 (@lookup_correct he257 5%nat prime_257 codes_257 int_257
                    slots_32 int_32 tape0 0%nat 4%nat countries "Norway"
                    eq_refl eq_refl)
             [] "Oslo"%string [("Sweden", "Stockholm")]%string).
    + reflexivity.
    + simpl. tauto.
    + simpl. intros [H|[]]. discriminate H.
    + discriminate.
  - apply (proj2 (@lookup_correct he257 5%nat prime_257 codes_257 int_257
                    slots_32 int_32 tape0 0%nat 4%nat countries "France"
                    eq_refl eq_refl)).
    + discriminate.
    + simpl. intros [H|[H|[]]]; discriminate H.
Defined.

(** A record with an empty value is reported as not found, and a value that
    is found comes back with its NUL padding. *)
Lemma lookup_counterexample :
  @lookup he257 tape0 2 (@encrypt_db he257 tape0 0 [("A", "")]%string) "A" 257 =
    Ok not_found_message /\
  @Ok string not_found_message <> Ok ""%string /\
  @lookup he257 tape0 4 (@encrypt_db he257 tape0 0 countries) "Norway" 257 =
    Ok (nul_padded 32 "Oslo") /\
  @Ok string (nul_padded 32 "Oslo") <> Ok "Oslo"%string.
Proof.
  split; [vm_compute; reflexivity|]. split; [discriminate|].
  split; [vm_compute; reflexivity | discriminate].
Qed.

(** C8.  A query of 33 characters, one more than there are slots, whose
    first 32 characters are a key of the database: nothing in [run] rejects
    it (only [read_csv] compares lengths with the slot count);
    [encodeEncrypt] drops the last character and the lookup answers as for
    the 32-character key.  [lookup_ignores_tail] is the same fact for every
    capability that meets the contract. *)
Theorem lookup_long_query :
  String.length (key32 ++ "X") = 33%nat /\
  @slotCount he257 = 32 /\
  @run he257 tape0 (Some (key32 ++ ",Oslo" ++ nl)%string) "countries.csv"
       (key32 ++ "X") "" 257 =
    Ok (nul_padded 32 "Oslo").
Proof.
  split; [reflexivity|]. split; [reflexivity|]. vm_compute. reflexivity.
Qed.

(** A line that is not empty and contains a comma, and still yields a single
    field: [row[1]] is out of range. *)
Lemma read_csv_counterexample :
  "a,"%string <> EmptyString /\
  "a,"%string = ("a" ++ String ","%char EmptyString)%string /\
  getline_all "a," ","%char = ["a"%string] /\
  read_csv (Some "a,"%string) "countries.csv" 32 = Undefined.
Proof.
  split; [discriminate|]. split; [reflexivity|]. split; reflexivity.
Qed.

Lemma read_csv_in_bounds_witness :
  (exists a b, "a,b"%string = (a ++ String ","%char b)%string /\ b <> EmptyString) /\
  read_csv (Some countries_csv) "countries.csv" 32 <> Undefined /\
  read_row "Norway" 32 = Undefined.
Proof.
  destruct read_csv_in_bounds as [Hiff [Hfile Hline]].
  split; [apply (proj1 (Hiff "a,b"%string)); reflexivity|].
  split; [apply Hfile; reflexivity|].
  apply Hline; [unfold INT_MAX; lia | simpl; lia | reflexivity].
Defined.

(** A composite modulus passes the start-up check. *)
Lemma setup_check_counterexample :
  setup_check 1025 = true /\ ~ Z.prime 1025.
Proof.
  split; [reflexivity|]. intros [_ H]. apply (H 5); [lia|].
  exists 205. reflexivity.
Qed.

Lemma setup_check_correct_witness :
  100 < 127 /\ 128 <= 257 /\
  @main he257 tape0 (Some countries_csv) "countries.csv" "Norway" "" 100 =
    Throw "always_assert(plaintextModulus >= 127)" /\
  @main he257 tape0 (Some countries_csv) "countries.csv" "Norway" "" 257 =
    @run he257 tape0 (Some countries_csv) "countries.csv" "Norway" "" 257.
Proof.
  split; [lia|]. split; [lia|].
  destruct (@setup_check_correct he257 tape0 (Some countries_csv)
              "countries.csv" "Norway" "" 100) as [Hlow _].
  destruct (@setup_check_correct he257 tape0 (Some countries_csv)
              "countries.csv" "Norway" "" 257) as [_ Hhigh].
  split; [apply Hlow; lia | apply Hhigh; lia].
Defined.

(** The two runs of C9 on the sample database, with different tapes. *)
Example runs_agree :
  @run he257 tape0 (Some countries_csv) "countries.csv" "Norway" "" 257 =
  @run he257 tape1 (Some countries_csv) "countries.csv" "Norway" "" 257 /\
  @encrypt_db he257 tape0 0 countries <> @encrypt_db he257 tape1 0 countries.
Proof.
  split; [vm_compute; reflexivity | vm_compute; discriminate].
Qed.

End Runs.

(** * More of the program *)

(** ** Characters *)

Lemma int_of_char_range c : - 128 <= int_of_char c < 128.
Proof.
  unfold int_of_char. pose proof (nat_ascii_bounded c).
  destruct (Z.of_nat (nat_of_ascii c) <? 128) eqn:E.
  - apply Z.ltb_lt in E. lia.
  - apply Z.ltb_ge in E. lia.
Qed.

Lemma char_of_int_of_any_char c : char_of_int (int_of_char c) = c.
Proof.
  unfold char_of_int, int_of_char. pose proof (nat_ascii_bounded c).
  destruct (Z.of_nat (nat_of_ascii c) <? 128) eqn:E.
  - apply Z.ltb_lt in E. rewrite Z.mod_small by lia.
    rewrite Nat2Z.id. apply ascii_nat_embedding.
  - apply Z.ltb_ge in E.
    replace (Z.of_nat (nat_of_ascii c) - 256)
      with (Z.of_nat (nat_of_ascii c) + (-1) * 256) by lia.
    rewrite Z.mod_add, Z.mod_small by lia.
    rewrite Nat2Z.id. apply ascii_nat_embedding.
Qed.

(** X1.  [stringToAscii] gives one code per character, each a signed 8-bit
    value, and narrowing the codes back to characters, as [run] does for
    its result, gives the string back, for every string whatsoever. *)
Theorem stringToAscii_round_trip (val : string) :
  length (stringToAscii val) = String.length val /\
  Forall (fun x => - 128 <= x < 128) (stringToAscii val) /\
  string_of_list_ascii (map char_of_int (stringToAscii val)) = val.
Proof.
  unfold stringToAscii. split; [|split].
  - rewrite length_map. apply length_list_ascii.
  - apply Forall_forall. intros x Hx. apply in_map_iff in Hx.
    destruct Hx as [c [<- _]]. apply int_of_char_range.
  - rewrite map_map.
    rewrite (map_ext _ (fun c => c)) by apply char_of_int_of_any_char.
    rewrite map_id. apply string_of_list_ascii_of_string.
Qed.

(** ** Termination of the search *)

Section Returns.

Context {he : HeContext}.

Lemma pow_loop_returns fuel : forall c y d,
  (Z.to_nat d <= fuel)%nat \/ d <= 1 ->
  exists st, pow_loop fuel c y d = Some st.
Proof.
  induction fuel as [|fuel IH]; intros c y d H; simpl.
  - destruct (1 <? d) eqn:E; [|eexists; reflexivity].
    apply Z.ltb_lt in E. lia.
  - destruct (1 <? d) eqn:E; [|eexists; reflexivity].
    apply Z.ltb_lt in E.
    rewrite !Z.quot_div_nonneg by lia.
    assert (d / 2 <= d - 1) by (apply Z.div_le_upper_bound; lia).
    assert ((d - 1) / 2 <= d - 1) by (apply Z.div_le_upper_bound; lia).
    destruct (Z.rem d 2 =? 0); apply IH; lia.
Qed.

Lemma pow_returns c d : exists c', pow c d = Some c'.
Proof.
  destruct (pow_loop_returns (Z.to_nat d) c None d) as [st Hst]; [lia|].
  rewrite pow_finish, Hst. eexists. reflexivity.
Qed.

(** X2.  [pow] comes back for every degree, also outside the range it is
    meant for; for a degree of 1 or less, zero and negative degrees
    included, the loop is not entered and the tile is left as it was (so
    degree 0 does not give the all-ones vector). *)
Theorem pow_small_degree (ctile : CTile) (degree : Z) :
  (exists ctile', pow ctile degree = Some ctile') /\
  (degree <= 1 -> pow ctile degree = Some ctile).
Proof.
  split; [apply pow_returns|].
  intros H. unfold pow.
  assert (E : (1 <? degree) = false) by (apply Z.ltb_ge; lia).
  destruct (Z.to_nat degree); simpl; rewrite E; reflexivity.
Qed.


Variable k : nat.
Hypothesis slots_pow2 : slotCount = 2 ^ Z.of_nat k.
Hypothesis slots_int : slotCount <= INT_MAX.









End Returns.

(** X4.  A database without records makes the lookup read [mask[0]] of an
    empty vector: for every capability, query and modulus the lookup on an
    empty encrypted database is undefined, and so is [run] on a file that
    opens and has no line. *)
Theorem lookup_empty_database {he : HeContext} (rnd : nat -> Rand) :
  (forall k query_string plaintextModulus,
     lookup rnd k [] query_string plaintextModulus = Undefined) /\
  (forall content db_filename countryName cin plaintextModulus,
     isModularArithmetic = true ->
     file_lines content = [] ->
     run rnd (Some content) db_filename countryName cin plaintextModulus =
       Undefined).
Proof.
  split.
  - intros. reflexivity.
  - intros content db_filename countryName cin pm Hmod Hlines.
    unfold run. rewrite Hmod. simpl.
    unfold read_csv. rewrite getline_all_fields.
    fold (file_lines content). rewrite Hlines. reflexivity.
Qed.

(** ** Several matching records *)

Definition sumZ (l : list Z) : Z := fold_right Z.add 0 l.

Definition keys_well_formed (n : nat) (db : list (string * string)) : bool :=
  forallb (fun kv => well_formed n (fst kv)) db.

Lemma sumZ_permutation l l' : Permutation l l' -> sumZ l = sumZ l'.
Proof. induction 1; simpl; lia. Qed.

Lemma keys_well_formed_permutation n db db' :
  Permutation db db' -> keys_well_formed n db = true ->
  keys_well_formed n db' = true.
Proof.
  unfold keys_well_formed. intros HP H.
  rewrite forallb_forall in *. intros kv Hin. apply H.
  apply Permutation_in with (l := db'); [now apply Permutation_sym | exact Hin].
Qed.

Section SumOfMatches.

Context {he : HeContext}.

Variable k : nat.
Hypothesis modulus_prime : Z.prime modulus.
Hypothesis modulus_codes : 128 <= modulus.
Hypothesis modulus_int : modulus <= INT_MAX.
Hypothesis slots_pow2 : slotCount = 2 ^ Z.of_nat k.
Hypothesis slots_int : slotCount <= INT_MAX.

Let n : nat := Z.to_nat slotCount.

Lemma modulus_positive : 0 < modulus.
Proof. pose proof modulus_gt_1. lia. Qed.

Lemma masked_vector_normal q kv : normal modulus n (masked_vector q kv).
Proof.
  unfold masked_vector. destruct (String.eqb (fst kv) q).
  - apply encode_normal, modulus_positive.
  - apply repeat_normal. unfold in_range. pose proof modulus_gt_1. lia.
Qed.

Lemma search_decodes_keys rnd query query_string :
  decryptDecodeInt query = encode modulus n (stringToAscii query_string) ->
  well_formed n query_string = true ->
  forall country_db k0 k1,
    keys_well_formed n country_db = true ->
    exists mask,
      search rnd k1 query (encrypt_db rnd k0 country_db) modulus = Some mask /\
      map decryptDecodeInt mask = map (masked_vector query_string) country_db.
Proof.
  intros Hq Hwq. induction country_db as [|kv db IH]; intros k0 k1 Hwf.
  - exists []. split; reflexivity.
  - simpl in Hwf. apply andb_prop in Hwf. destruct Hwf as [Hkey Hdb].
    simpl.
    destruct (match_record_decodes k modulus_prime modulus_int slots_pow2 slots_int
                (rnd k1) query
                (encodeEncrypt (rnd k0) (stringToAscii (fst kv)),
                 encodeEncrypt (rnd (S k0)) (stringToAscii (snd kv))))
      as [masked [Hrun Hmasked]].
    rewrite Hrun.
    destruct (IH (S (S k0)) (S k1) Hdb) as [mask [Hmask Hdec]].
    rewrite Hmask. eexists. split; [reflexivity|].
    simpl. rewrite Hdec. f_equal.
    simpl in Hmasked. rewrite !dec_encodeEncrypt, Hq in Hmasked.
    fold n in Hmasked. rewrite Hmasked. unfold masked_vector.
    pose proof (all_ones_indicator
                  (encode modulus n (stringToAscii (fst kv)))
                  (encode modulus n (stringToAscii query_string))
                  (pad_trunc_length _ _) (pad_trunc_length _ _)) as Hiff.
    destruct (String.eqb (fst kv) query_string) eqn:E.
    + apply String.eqb_eq in E.
      assert (A : all_ones (indicator
                    (encode modulus n (stringToAscii (fst kv)))
                    (encode modulus n (stringToAscii query_string))) = true)
        by (apply Hiff; now rewrite E).
      now rewrite A.
    + apply String.eqb_neq in E.
      destruct (all_ones _) eqn:A; [|reflexivity].
      exfalso. apply E.
      apply (encode_string_inj modulus n modulus_codes); auto.
      now apply Hiff.
Qed.

(** A slot of a sum of vectors is the sum of the slots, modulo [modulus]. *)
Lemma nth_fold_vadd i others : forall acc,
  (i < n)%nat -> normal modulus n acc ->
  Forall (normal modulus n) others ->
  nth i (fold_left (vadd modulus) others acc) 0 =
  (nth i acc 0 + sumZ (map (fun d => nth i d 0) others)) mod modulus.
Proof.
  pose proof modulus_positive as Hp.
  induction others as [|d others IH]; intros acc Hi Hacc Hall; simpl.
  - rewrite Z.add_0_r. symmetry. apply Z.mod_small.
    apply (normal_nth modulus n Hp acc i Hacc).
  - inversion Hall as [|? ? Hd Hrest]; subst.
    rewrite IH; auto; [|now apply vadd_normal].
    unfold vadd. rewrite slotwise_nth
      by (destruct Hacc as [Ha _]; destruct Hd as [Hd' _]; lia).
    rewrite Z.add_mod_idemp_l by lia. f_equal. lia.
Qed.

Lemma nth_vsum i ds :
  (i < n)%nat -> ds <> [] -> Forall (normal modulus n) ds ->
  nth i (vsum modulus ds) 0 = sumZ (map (fun d => nth i d 0) ds) mod modulus.
Proof.
  intros Hi Hne Hall. destruct ds as [|d0 others]; [congruence|].
  inversion Hall; subst. simpl. now apply nth_fold_vadd.
Qed.

Lemma sum_of_matches i q db :
  (i < n)%nat ->
  sumZ (map (fun d => nth i d 0) (map (masked_vector q) db)) =
  sumZ (map (fun kv => nth i (encode modulus n (stringToAscii (snd kv))) 0)
            (filter (fun kv => String.eqb (fst kv) q) db)).
Proof.
  intros Hi. induction db as [|kv db IH]; simpl; [reflexivity|].
  unfold masked_vector at 1. destruct (String.eqb (fst kv) q); simpl.
  - now rewrite IH.
  - rewrite nth_repeat_in by exact Hi. now rewrite IH.
Qed.

(** The lookup on any database with well-formed keys. *)
Lemma lookup_sum rnd k0 k1 db q :
  keys_well_formed n db = true -> well_formed n q = true -> db <> [] ->
  exists mask value,
    search rnd (S k1) (encodeEncrypt (rnd k1) (stringToAscii q))
           (encrypt_db rnd k0 db) modulus = Some mask /\
    aggregate mask = Ok value /\
    lookup rnd k1 (encrypt_db rnd k0 db) q modulus = report value /\
    forall i, (i < n)%nat ->
      nth i (decryptDecodeInt value) 0 =
      sumZ (map (fun d => nth i d 0) (map (masked_vector q) db)) mod modulus.
Proof.
  intros Hdb Hq Hne.
  destruct (search_decodes_keys rnd
              (encodeEncrypt (rnd k1) (stringToAscii q)) q
              (dec_encodeEncrypt _ _) Hq db k0 (S k1) Hdb)
    as [mask [Hsearch Hdec]].
  destruct (aggregate_decodes mask) as [value [Hagg Hsum]].
  { intros ->. destruct db; [congruence | discriminate]. }
  exists mask, value. split; [exact Hsearch|]. split; [exact Hagg|]. split.
  - unfold lookup. rewrite Hsearch, Hagg. reflexivity.
  - intros i Hi. rewrite Hsum, Hdec. apply nth_vsum; auto.
    + destruct db; [congruence | discriminate].
    + apply Forall_forall. intros d Hd. apply in_map_iff in Hd.
      destruct Hd as [kv [<- _]]. apply masked_vector_normal.
Qed.

(** X5.  With a prime modulus of at least 128, a power-of-two slot count and
    well-formed keys and query, whatever the values are and however many
    records have the query as their key: the search and the aggregation come
    back, and every slot of the aggregated ciphertext decodes to the sum,
    modulo the modulus, of that slot over the encoded values of all records
    whose key is the query.  Two matching records give the slot-wise sum of
    their values, none gives zero. *)
Theorem aggregate_adds_matches (rnd : nat -> Rand) (k0 k1 : nat)
  (country_db : list (string * string)) (query_string : string) :
  keys_well_formed (Z.to_nat slotCount) country_db = true ->
  well_formed (Z.to_nat slotCount) query_string = true ->
  country_db <> [] ->
  exists mask value,
    search rnd (S k1) (encodeEncrypt (rnd k1) (stringToAscii query_string))
           (encrypt_db rnd k0 country_db) modulus = Some mask /\
    aggregate mask = Ok value /\
    forall i, (i < Z.to_nat slotCount)%nat ->
      nth i (decryptDecodeInt value) 0 =
      sumZ (map (fun kv =>
                   nth i (encode modulus (Z.to_nat slotCount)
                            (stringToAscii (snd kv))) 0)
                (filter (fun kv => String.eqb (fst kv) query_string) country_db))
      mod modulus.
Proof.
  intros Hdb Hq Hne.
  destruct (lookup_sum rnd k0 k1 country_db query_string Hdb Hq Hne)
    as [mask [value [Hsearch [Hagg [_ Hslots]]]]].
  exists mask, value. split; [exact Hsearch|]. split; [exact Hagg|].
  intros i Hi. fold n in Hi |- *. rewrite (Hslots i Hi).
  f_equal. now apply sum_of_matches.
Qed.

(** X6.  Under the same configuration the order of the records does not
    matter: the lookup gives the same result on any rearrangement of the
    database, whatever randomness either encryption used. *)
Theorem lookup_order_irrelevant (rnd rnd' : nat -> Rand) (k0 k1 k0' k1' : nat)
  (country_db country_db' : list (string * string)) (query_string : string) :
  Permutation country_db country_db' ->
  keys_well_formed (Z.to_nat slotCount) country_db = true ->
  well_formed (Z.to_nat slotCount) query_string = true ->
  lookup rnd k1 (encrypt_db rnd k0 country_db) query_string modulus =
  lookup rnd' k1' (encrypt_db rnd' k0' country_db') query_string modulus.
Proof.
  intros HP Hdb Hq. fold n in Hdb, Hq.
  pose proof (keys_well_formed_permutation n _ _ HP Hdb) as Hdb'.
  destruct country_db as [|kv db].
  - apply Permutation_nil in HP. subst. reflexivity.
  - assert (Hne' : country_db' <> []).
    { intros ->. apply Permutation_sym, Permutation_nil in HP. discriminate. }
    destruct (lookup_sum rnd k0 k1 (kv :: db) query_string Hdb Hq)
      as [mask [value [_ [_ [Hlook Hslots]]]]]; [discriminate|].
    destruct (lookup_sum rnd' k0' k1' country_db' query_string Hdb' Hq Hne')
      as [mask' [value' [_ [_ [Hlook' Hslots']]]]].
    rewrite Hlook, Hlook'. apply report_alike. unfold alike.
    apply nth_ext with (d := 0) (d' := 0).
    + now rewrite !dec_length.
    + intros i Hi. rewrite dec_length in Hi. fold n in Hi.
      rewrite (Hslots i Hi), (Hslots' i Hi). f_equal.
      apply sumZ_permutation. now do 2 apply Permutation_map.
Qed.

End SumOfMatches.

(** ** Files and lines *)

Lemma free_of_cons delim c s :
  free_of delim (String c s) = negb (Ascii.eqb c delim) && free_of delim s.
Proof. reflexivity. Qed.

Lemma free_of_app delim s t :
  free_of delim (s ++ t) = free_of delim s && free_of delim t.
Proof.
  induction s as [|c s IH]; [reflexivity|].
  cbn [append]. rewrite !free_of_cons, IH. apply andb_assoc.
Qed.

(** A string without the delimiter is one field. *)
Lemma fields_free delim s :
  free_of delim s = true -> s <> EmptyString -> fields delim s = [s].
Proof.
  induction s as [|c s IH]; intros Hf Hne; [congruence|].
  rewrite free_of_cons in Hf. apply andb_prop in Hf. destruct Hf as [Hc Hs].
  apply negb_true_iff in Hc. simpl. rewrite Hc.
  destruct s as [|c' s']; [reflexivity|].
  rewrite IH; [reflexivity | exact Hs | discriminate].
Qed.

(** The first field ends at the first delimiter. *)
Lemma fields_app delim a b :
  free_of delim a = true ->
  fields delim (a ++ String delim b) = a :: fields delim b.
Proof.
  induction a as [|c a IH]; intros Hf.
  - simpl. now rewrite Ascii.eqb_refl.
  - rewrite free_of_cons in Hf. apply andb_prop in Hf. destruct Hf as [Hc Ha].
    apply negb_true_iff in Hc. cbn [append fields]. rewrite Hc.
    now rewrite IH.
Qed.

Lemma read_row_fields line maxLen row0 row1 more :
  fields ","%char line = row0 :: row1 :: more ->
  too_long row0 maxLen = false -> too_long row1 maxLen = false ->
  read_row line maxLen = Ok (row0, row1).
Proof.
  intros F H0 H1. unfold read_row. rewrite getline_all_fields, F.
  simpl. now rewrite H0, H1.
Qed.

Lemma too_long_false s maxLen :
  0 <= maxLen <= INT_MAX -> Z.of_nat (String.length s) <= maxLen ->
  too_long s maxLen = false.
Proof.
  intros Hmax Hlen. destruct (too_long s maxLen) eqn:E; [|reflexivity].
  apply too_long_spec in E; [lia | exact Hmax].
Qed.

(** A record that can be written to a file and read back: no comma and no
    line feed in key or value, a value that is not empty, and neither longer
    than [maxLen]. *)
Definition storable (maxLen : Z) (kv : string * string) : bool :=
  free_of ","%char (fst kv) && free_of (ascii_of_nat 10) (fst kv) &&
  free_of ","%char (snd kv) && free_of (ascii_of_nat 10) (snd kv) &&
  negb (String.eqb (snd kv) "") &&
  (Z.of_nat (String.length (fst kv)) <=? maxLen) &&
  (Z.of_nat (String.length (snd kv)) <=? maxLen).

Section FileFacts.

Variable maxLen : Z.
Hypothesis maxLen_int : 0 <= maxLen <= INT_MAX.

Lemma storable_line kv :
  storable maxLen kv = true ->
  free_of (ascii_of_nat 10) (csv_line kv) = true /\
  read_row (csv_line kv) maxLen = Ok kv.
Proof.
  unfold storable. intros H. rewrite !andb_true_iff in H.
  destruct H as [[[[[[Hkc Hkn] Hvc] Hvn] Hne] Hlk] Hlv].
  destruct kv as [key value]. cbn [fst snd] in *.
  unfold csv_line. cbn [fst snd].
  change ("," ++ value)%string with (String ","%char value).
  split.
  - rewrite free_of_app, free_of_cons, Hkn, Hvn. reflexivity.
  - apply read_row_fields with (more := []).
    + rewrite fields_app by assumption.
      rewrite fields_free; auto.
      apply negb_true_iff in Hne. now apply String.eqb_neq.
    + apply too_long_false; [exact maxLen_int | now apply Z.leb_le].
    + apply too_long_false; [exact maxLen_int | now apply Z.leb_le].
Qed.

Lemma file_lines_csv_file db :
  forallb (storable maxLen) db = true ->
  fields (ascii_of_nat 10) (csv_file db) = map csv_line db.
Proof.
  induction db as [|kv db IH]; intros H; [reflexivity|].
  simpl in H. apply andb_prop in H. destruct H as [Hkv Hdb].
  cbn [csv_file map].
  change (csv_line kv ++ nl ++ csv_file db)%string
    with (csv_line kv ++ String (ascii_of_nat 10) (csv_file db))%string.
  rewrite fields_app by apply (storable_line kv Hkv).
  now rewrite IH.
Qed.

Lemma read_rows_csv db : forall dataset,
  forallb (storable maxLen) db = true ->
  read_rows (map csv_line db) maxLen dataset = Ok (dataset ++ db).
Proof.
  induction db as [|kv db IH]; intros dataset H; simpl.
  - now rewrite app_nil_r.
  - simpl in H. apply andb_prop in H. destruct H as [Hkv Hdb].
    destruct (storable_line kv Hkv) as [_ ->].
    rewrite IH by exact Hdb. now rewrite <- app_assoc.
Qed.

Lemma string_app_assoc (a b c : string) :
  ((a ++ b) ++ c = a ++ (b ++ c))%string.
Proof. induction a as [|x a IH]; simpl; congruence. Qed.

Lemma string_app_nil_r (a : string) : (a ++ "" = a)%string.
Proof. induction a as [|x a IH]; simpl; congruence. Qed.

Lemma row_text_line r :
  valid_row r = true ->
  free_of (ascii_of_nat 10) (row_text r) = true /\
  row_text r <> EmptyString /\
  exists more, fields ","%char (row_text r) = fst (fst r) :: snd (fst r) :: more.
Proof.
  unfold valid_row. rewrite !andb_true_iff.
  destruct r as [[key value] tail]. cbn [fst snd].
  intros [[[[Hkc Hkn] Hvc] Hvn] Htail].
  unfold row_text, csv_line. cbn [fst snd].
  change ("," ++ value)%string with (String ","%char value).
  split; [|split].
  - rewrite !free_of_app, free_of_cons, Hkn, Hvn.
    destruct tail as [rest|]; [|reflexivity].
    change ("," ++ rest)%string with (String ","%char rest).
    rewrite free_of_cons, Htail. reflexivity.
  - destruct key; discriminate.
  - destruct tail as [rest|].
    + change ("," ++ rest)%string with (String ","%char rest).
      exists (fields ","%char rest).
      rewrite string_app_assoc. cbn [append].
      now rewrite !fields_app.
    + exists []. rewrite string_app_nil_r, fields_app by assumption.
      rewrite fields_free; auto.
      apply negb_true_iff in Htail. now apply String.eqb_neq.
Qed.

(** The lines of a text are the lines it was put together from. *)
Lemma fields_file_text lines final_nl :
  Forall (fun l => free_of (ascii_of_nat 10) l = true /\ l <> EmptyString) lines ->
  fields (ascii_of_nat 10) (file_text lines final_nl) = lines.
Proof.
  induction 1 as [|line rest [Hfree Hne] Hrest IH]; [reflexivity|].
  destruct rest as [|line' rest'].
  - cbn [file_text]. destruct final_nl.
    + change (line ++ nl)%string
        with (line ++ String (ascii_of_nat 10) EmptyString)%string.
      now rewrite fields_app.
    + now apply fields_free.
  - change (file_text (line :: line' :: rest') final_nl)
      with (line ++ String (ascii_of_nat 10)
                      (file_text (line' :: rest') final_nl))%string.
    rewrite fields_app by exact Hfree. now rewrite IH.
Qed.

Lemma rows_of_text rows :
  forallb valid_row rows = true ->
  Forall (fun l => free_of (ascii_of_nat 10) l = true /\ l <> EmptyString)
         (map row_text rows) /\
  forallb two_fields (map row_text rows) = true /\
  map row_pair (map row_text rows) = map fst rows.
Proof.
  induction rows as [|r rows IH]; intros H; [repeat split; constructor|].
  cbn [forallb] in H. apply andb_prop in H. destruct H as [Hr Hrows].
  destruct (IH Hrows) as [Hlines [Htwo Hpairs]].
  destruct (row_text_line r Hr) as [Hfree [Hne [more Hfields]]].
  cbn [map forallb]. split; [|split].
  - constructor; auto.
  - unfold two_fields at 1. rewrite Hfields, Htwo. reflexivity.
  - unfold row_pair at 1. rewrite Hfields, Hpairs.
    cbn [nth]. now destruct r as [[key value] tail].
Qed.

(** C7.  Take any file that opens and is made of lines [key,value], each
    possibly followed by a comma and more, the last line with or without
    its line feed, and a bound [maxLen] that is a slot count.  [read_csv]
    throws if and only if some key or value of the file has more than
    [maxLen] characters (no record is ever truncated: the whole load is
    abandoned); and when no key or value exceeds the bound it returns every
    (key, value) pair of the file, in file order. *)
Theorem read_csv_correct (rows : list row) (final_nl : bool) (filename : string) :
  forallb valid_row rows = true ->
  ((exists msg,
      read_csv (Some (file_text (map row_text rows) final_nl)) filename maxLen =
        Throw msg) <->
   Exists (oversized maxLen) (map fst rows)) /\
  (~ Exists (oversized maxLen) (map fst rows) ->
   read_csv (Some (file_text (map row_text rows) final_nl)) filename maxLen =
     Ok (map fst rows)).
Proof.
  intros H. destruct (rows_of_text rows H) as [Hlines [Htwo Hpairs]].
  unfold read_csv.
  rewrite getline_all_fields, (fields_file_text _ final_nl Hlines).
  destruct (read_rows_spec maxLen maxLen_int (map row_text rows) [] Htwo)
    as [[Hbig [msg Hthrow]] | [Hnone Hrun]]; rewrite Hpairs in *.
  - split.
    + split; [intros _; exact Hbig | intros _; now exists msg].
    + intros Hno. contradiction.
  - split.
    + split; [|intros Hbig; contradiction].
      intros [msg Hthrow]. rewrite Hrun in Hthrow. discriminate.
    + intros _. exact Hrun.
Qed.

(** X7.  Reading back what was written: for records without comma or line
    feed in key and value, with a value that is not empty, and within the
    bound, [read_csv] on the file of lines [key,value] returns exactly the
    records, in order. *)
Theorem read_csv_csv_file (db : list (string * string)) (filename : string) :
  forallb (storable maxLen) db = true ->
  read_csv (Some (csv_file db)) filename maxLen = Ok db.
Proof.
  intros H. unfold read_csv.
  rewrite getline_all_fields, (file_lines_csv_file db H).
  apply (read_rows_csv db [] H).
Qed.

(** X8.  Only the first two fields of a line count: whatever follows a
    second comma, more commas and any number of characters included, is
    ignored, and a value before a second comma may be empty. *)
Theorem read_row_ignores_later_fields (key value rest : string) :
  free_of ","%char key = true -> free_of ","%char value = true ->
  Z.of_nat (String.length key) <= maxLen ->
  Z.of_nat (String.length value) <= maxLen ->
  read_row (key ++ "," ++ value ++ "," ++ rest) maxLen = Ok (key, value).
Proof.
  intros Hk Hv Lk Lv.
  apply read_row_fields with (more := fields ","%char rest).
  - change (key ++ "," ++ value ++ "," ++ rest)%string
      with (key ++ String ","%char (value ++ String ","%char rest))%string.
    now rewrite !fields_app.
  - now apply too_long_false.
  - now apply too_long_false.
Qed.

Lemma read_rows_app pre : forall rest dataset dataset',
  read_rows pre maxLen dataset = Ok dataset' ->
  read_rows (pre ++ rest) maxLen dataset = read_rows rest maxLen dataset'.
Proof.
  induction pre as [|line pre IH]; intros rest dataset dataset' H; simpl in *.
  - injection H as ->. reflexivity.
  - destruct (read_row line maxLen); try discriminate. now apply IH.
Qed.

(** X9.  Which error [read_csv] raises: the load stops at the first line, in
    file order, with an oversized field, and names that field; in a line the
    key is looked at before the value, and a line whose key is oversized
    raises even when it has no second field.  Whatever follows in the file
    is not read. *)
Theorem read_csv_first_error (content filename line : string)
  (pre post : list string) (dataset : list (string * string))
  (row0 : string) (more : list string) :
  file_lines content = pre ++ line :: post ->
  read_rows pre maxLen [] = Ok dataset ->
  getline_all line ","%char = row0 :: more ->
  (Z.of_nat (String.length row0) > maxLen ->
   read_csv (Some content) filename maxLen =
     Throw ("Country name " ++ row0 ++ " too long")) /\
  (forall row1 more',
     more = row1 :: more' ->
     Z.of_nat (String.length row0) <= maxLen ->
     Z.of_nat (String.length row1) > maxLen ->
     read_csv (Some content) filename maxLen =
       Throw ("Capital name " ++ row1 ++ " too long")).
Proof.
  intros Hlines Hpre Hrow.
  assert (Hrun : read_csv (Some content) filename maxLen =
                 read_rows (line :: post) maxLen dataset).
  { unfold read_csv. rewrite getline_all_fields.
    fold (file_lines content). rewrite Hlines.
    now apply read_rows_app. }
  rewrite Hrun. cbn [read_rows]. unfold read_row. rewrite Hrow.
  split.
  - intros Hbig. apply (too_long_spec row0 maxLen maxLen_int) in Hbig.
    simpl. now rewrite Hbig.
  - intros row1 more' -> Hfit Hbig.
    apply (too_long_spec row1 maxLen maxLen_int) in Hbig.
    simpl. rewrite (too_long_false row0 maxLen maxLen_int Hfit).
    now rewrite Hbig.
Qed.

End FileFacts.

(** ** The command line *)

Module ArgsFacts.

Import Args.

(** The options the loop knows. *)
Definition known (arg : string) : bool :=
  String.eqb arg "--help" || String.eqb arg "--plaintext_modulus" ||
  String.eqb arg "--db_filename" || String.eqb arg "--country" ||
  String.eqb arg "--debug".

(** The options that take a value. *)
Definition takes_value (arg : string) : bool :=
  String.eqb arg "--plaintext_modulus" || String.eqb arg "--db_filename" ||
  String.eqb arg "--country".

(** Arguments that were parsed to the end set the stage for the rest. *)
Lemma parse_args_app_bounded m : forall xs c c' ys,
  (length xs <= m)%nat ->
  parse_args xs c = Ok (Go c') ->
  parse_args (xs ++ ys) c = parse_args ys c'.
Proof.
  induction m as [|m IH]; intros xs c c' ys Hlen H.
  - destruct xs; [|simpl in Hlen; lia]. simpl in H. injection H as ->. reflexivity.
  - destruct xs as [|arg rest]; [simpl in H; injection H as ->; reflexivity|].
    simpl in Hlen. cbn [app parse_args] in *.
    destruct (String.eqb arg "--help"); [discriminate|].
    destruct (String.eqb arg "--plaintext_modulus").
    { destruct rest as [|value rest']; [discriminate|]. cbn [app].
      destruct (atoi value); try discriminate.
      apply IH; [simpl in Hlen; lia | exact H]. }
    destruct (String.eqb arg "--db_filename").
    { destruct rest as [|value rest']; [discriminate|]. cbn [app].
      apply IH; [simpl in Hlen; lia | exact H]. }
    destruct (String.eqb arg "--country").
    { destruct rest as [|value rest']; [discriminate|]. cbn [app].
      apply IH; [simpl in Hlen; lia | exact H]. }
    destruct (String.eqb arg "--debug"); [|discriminate].
    apply IH; [lia | exact H].
Qed.

Lemma parse_args_app xs c c' ys :
  parse_args xs c = Ok (Go c') ->
  parse_args (xs ++ ys) c = parse_args ys c'.
Proof. apply (parse_args_app_bounded (length xs)). lia. Qed.

(** X10.  The argument loop works through the command line from left to
    right: once a first part has been read completely, the rest is read
    from the settings the first part left.  So a later [--country] or
    [--db_filename] replaces an earlier one, and what looks like an option
    right after one of them is taken as its value. *)
Theorem parse_args_left_to_right (xs ys : list string) (c c' : config) :
  parse_args xs c = Ok (Go c') ->
  parse_args (xs ++ ys) c = parse_args ys c' /\
  (forall value,
     parse_args (xs ++ ["--country"; value]%string) c =
       Ok (Go (set_countryName c' value))) /\
  (forall value,
     parse_args (xs ++ ["--db_filename"; value]%string) c =
       Ok (Go (set_db_filename c' value))).
Proof.
  intros H. split; [|split].
  - now apply parse_args_app.
  - intros value. rewrite (parse_args_app xs c c' _ H). reflexivity.
  - intros value. rewrite (parse_args_app xs c c' _ H). reflexivity.
Qed.

Section Main.

Variable init : Z -> HeContext.
Variable rnd : forall m : Z, nat -> @Rand (init m).
Variable fs : string -> option string.
Variables dataSetsDir cin prog : string.

(** X11.  [--help], wherever it stands after arguments that were read
    completely, ends the program after the usage text: nothing that follows
    it is looked at, no file is opened and nothing is encrypted. *)
Theorem main_help (pre post : list string) (c : config) :
  parse_args pre (defaults dataSetsDir) = Ok (Go c) ->
  main_argv init rnd fs dataSetsDir cin (prog :: pre ++ "--help"%string :: post) =
    Ok (UsagePrinted usage).
Proof.
  intros H. unfold main_argv. cbn [tl].
  rewrite (parse_args_app pre _ c _ H). reflexivity.
Qed.

(** X12.  An argument that is none of the five options, met where an option
    is expected, ends the program with the error that names it, before any
    file is opened. *)
Theorem main_unsupported_argument (pre post : list string) (c : config)
  (arg : string) :
  parse_args pre (defaults dataSetsDir) = Ok (Go c) ->
  known arg = false ->
  main_argv init rnd fs dataSetsDir cin (prog :: pre ++ arg :: post) =
    Throw ("Unsupported argument: " ++ arg).
Proof.
  intros H Hk. unfold main_argv. cbn [tl].
  rewrite (parse_args_app pre _ c _ H).
  unfold known in Hk. rewrite !orb_false_iff in Hk.
  destruct Hk as [[[[H1 H2] H3] H4] H5].
  cbn [parse_args]. now rewrite H1, H2, H3, H4, H5.
Qed.

(** X13.  An option that takes a value ([--plaintext_modulus],
    [--db_filename], [--country]) as the last argument makes the loop read
    [argv[argc]]: undefined behaviour, not an error message. *)
Theorem main_missing_value (pre : list string) (c : config) (arg : string) :
  parse_args pre (defaults dataSetsDir) = Ok (Go c) ->
  takes_value arg = true ->
  main_argv init rnd fs dataSetsDir cin (prog :: pre ++ [arg]) = Undefined.
Proof.
  intros H Ht. unfold main_argv. cbn [tl].
  rewrite (parse_args_app pre _ c _ H).
  unfold takes_value in Ht. rewrite !orb_true_iff in Ht.
  cbn [parse_args].
  destruct Ht as [[Ht | Ht] | Ht]; apply String.eqb_eq in Ht; subst arg;
    reflexivity.
Qed.

End Main.

End ArgsFacts.

(** ** Numbers on the command line *)

Module AtoiFacts.

Import Args.

(** [s] does not go on with a digit. *)
Definition no_digit_ahead (s : string) : bool :=
  match s with
  | EmptyString => true
  | String c _ => negb (isdigit c)
  end.

(** [s] does not start like a number: no white space, sign or digit first. *)
Definition not_a_number (s : string) : bool :=
  match s with
  | EmptyString => true
  | String c _ =>
      negb (isspace c) && negb (isdigit c) &&
      negb (Ascii.eqb c "-") && negb (Ascii.eqb c "+")
  end.

Lemma digits_value_stop acc rest :
  no_digit_ahead rest = true -> digits_value acc rest = acc.
Proof.
  destruct rest as [|c rest]; simpl; [reflexivity|].
  intros H. apply negb_true_iff in H. now rewrite H.
Qed.

Lemma digits_value_digit acc c s :
  isdigit c = true ->
  digits_value acc (String c s) =
  digits_value (acc * 10 + (Z.of_nat (nat_of_ascii c) - 48)) s.
Proof. intros H. cbn [digits_value]. now rewrite H. Qed.

Ltac eval_digit :=
  rewrite digits_value_digit by reflexivity;
  match goal with
  | |- context [Z.of_nat (nat_of_ascii ?c)] =>
      let v := eval vm_compute in (Z.of_nat (nat_of_ascii c)) in
      change (Z.of_nat (nat_of_ascii c)) with v
  end.

Lemma digits_value_acc d rest : forall acc,
  no_digit_ahead rest = true ->
  digits_value (Z.pos acc) (NilEmpty.string_of_uint d ++ rest) =
  Z.pos (Pos.of_uint_acc d acc).
Proof.
  induction d; intros acc H; cbn [NilEmpty.string_of_uint append Pos.of_uint_acc];
    try (now apply digits_value_stop);
    eval_digit;
    match goal with
    | |- digits_value ?v _ = Z.pos (Pos.of_uint_acc _ ?a) =>
        replace v with (Z.pos a) by lia
    end; now apply IHd.
Qed.

Lemma digits_value_uint d rest :
  no_digit_ahead rest = true ->
  digits_value 0 (NilEmpty.string_of_uint d ++ rest) = Z.of_N (Pos.of_uint d).
Proof.
  intros H.
  induction d; cbn [NilEmpty.string_of_uint append Pos.of_uint];
    try (now apply digits_value_stop);
    eval_digit; cbn [Z.mul Z.add Z.sub Z.opp Z.pos_sub Pos.pred_double
                     Z.succ_double Z.pred_double Z.double];
    try exact IHd; now apply digits_value_acc.
Qed.

Lemma digits_value_pos p rest :
  no_digit_ahead rest = true ->
  digits_value 0 (NilZero.string_of_uint (Pos.to_uint p) ++ rest) = Z.pos p.
Proof.
  intros H. pose proof (Unsigned.to_uint_nonnil p) as Hnil.
  pose proof (DecimalPos.Unsigned.of_to p) as Hof.
  unfold NilZero.string_of_uint.
  destruct (Pos.to_uint p) eqn:E; try congruence;
    rewrite (digits_value_uint _ rest H), Hof; reflexivity.
Qed.

Lemma atoi_value_uint d rest :
  d <> Decimal.Nil ->
  atoi_value (NilEmpty.string_of_uint d ++ rest) =
  digits_value 0 (NilEmpty.string_of_uint d ++ rest).
Proof. destruct d; intros H; try congruence; reflexivity. Qed.

Lemma atoi_value_minus s : atoi_value (String "-" s) = - digits_value 0 s.
Proof. reflexivity. Qed.

Lemma atoi_digits rest :
  no_digit_ahead rest = true ->
  forall z, - 2147483648 <= z <= INT_MAX ->
  atoi (NilZero.string_of_int (Z.to_int z) ++ rest) = Ok z.
Proof.
  intros H z Hz.
  assert (Hrange : (- 2147483648 <=? z) && (z <=? INT_MAX) = true).
  { apply andb_true_intro. split; apply Z.leb_le; lia. }
  assert (Hv : atoi_value (NilZero.string_of_int (Z.to_int z) ++ rest) = z).
  { destruct z as [|p|p]; cbn [Z.to_int NilZero.string_of_int].
    - change (NilZero.string_of_uint (Decimal.D0 Decimal.Nil))
        with (NilEmpty.string_of_uint (Decimal.D0 Decimal.Nil)).
      rewrite atoi_value_uint by discriminate.
      now rewrite (digits_value_uint _ rest H).
    - pose proof (digits_value_pos p rest H) as Hp.
      pose proof (Unsigned.to_uint_nonnil p) as Hnil.
      unfold NilZero.string_of_uint in *.
      destruct (Pos.to_uint p) eqn:E; try congruence;
        rewrite atoi_value_uint by discriminate; exact Hp.
    - cbn [append]. rewrite atoi_value_minus.
      now rewrite (digits_value_pos p rest H). }
  unfold atoi. rewrite Hv. cbv zeta. now rewrite Hrange.
Qed.

Lemma atoi_not_a_number s : not_a_number s = true -> atoi s = Ok 0.
Proof.
  destruct s as [|c s]; [reflexivity|]. cbn [not_a_number].
  rewrite !andb_true_iff, !negb_true_iff.
  intros [[[Hs Hd] Hm] Hp].
  assert (Hv : atoi_value (String c s) = 0).
  { unfold atoi_value. cbn [skip_space]. rewrite Hs.
    assert (Hdv : digits_value 0 (String c s) = 0)
      by (cbn [digits_value]; now rewrite Hd).
    apply Ascii.eqb_neq in Hm, Hp.
    destruct c as [[] [] [] [] [] [] [] []]; try congruence; exact Hdv. }
  unfold atoi. rewrite Hv. reflexivity.
Qed.

(** X14.  [atoi] reads the decimal notation of every [int]: the text of the
    number, minus sign included, followed by anything that does not go on
    with a digit, gives the number; so [--plaintext_modulus] followed by
    such a text sets the modulus to that number. *)
Theorem atoi_decimal (z : Z) (rest : string) (c : config) :
  - 2147483648 <= z <= INT_MAX ->
  no_digit_ahead rest = true ->
  atoi (NilZero.string_of_int (Z.to_int z) ++ rest) = Ok z /\
  parse_args ["--plaintext_modulus"%string;
              (NilZero.string_of_int (Z.to_int z) ++ rest)%string] c =
    Ok (Go (set_plaintextModulus c z)).
Proof.
  intros Hz Hrest. pose proof (atoi_digits rest Hrest z Hz) as H.
  split; [exact H|]. cbn [parse_args].
  change (String.eqb "--plaintext_modulus" "--help") with false.
  change (String.eqb "--plaintext_modulus" "--plaintext_modulus") with true.
  cbv iota. rewrite H. reflexivity.
Qed.

Section Main.

Variable init : Z -> HeContext.
Variable rnd : forall m : Z, nat -> @Rand (init m).
Variable fs : string -> option string.
Variables dataSetsDir cin prog : string.

(** X15.  A modulus argument that does not start like a number is not
    reported as such: [atoi] reads it as 0, and when it is the last argument
    the program stops at the assertion on the modulus, before any file is
    opened. *)
Theorem main_modulus_not_a_number (pre : list string) (c : config) (text : string) :
  parse_args pre (defaults dataSetsDir) = Ok (Go c) ->
  not_a_number text = true ->
  atoi text = Ok 0 /\
  main_argv init rnd fs dataSetsDir cin
            (prog :: pre ++ ["--plaintext_modulus"%string; text]) =
    Throw "always_assert(plaintextModulus >= 127)".
Proof.
  intros H Ht. pose proof (atoi_not_a_number text Ht) as Ha.
  split; [exact Ha|]. unfold main_argv. cbn [tl].
  rewrite (ArgsFacts.parse_args_app pre _ c _ H).
  cbn [parse_args].
  change (String.eqb "--plaintext_modulus" "--help") with false.
  change (String.eqb "--plaintext_modulus" "--plaintext_modulus") with true.
  cbv iota. rewrite Ha. reflexivity.
Qed.

End Main.

End AtoiFacts.

(** * More concrete runs *)

Module MoreRuns.

Import Clear Runs Args ArgsFacts AtoiFacts.

(** [he.init] for the runs below: the clear capability with 32 slots for the
    modulus asked for. *)
Definition init32 (m : Z) : HeContext :=
  match Z_lt_dec 1 m with
  | left H => context m 32 H (fun E => ltac:(discriminate E))
  | right _ => he257
  end.

Definition tapes (m : Z) : nat -> @Rand (init32 m) :=
  match Z_lt_dec 1 m as d
    return nat -> @Rand (match d with
                         | left H => context m 32 H (fun E => ltac:(discriminate E))
                         | right _ => he257
                         end)
  with
  | left _ => tape0
  | right _ => tape0
  end.

Definition no_files : string -> option string := fun _ => None.

Definition twins : list (string * string) :=
  [("Rome", "A"); ("Oslo", "x"); ("Rome", "B")]%string.

Lemma int_bound_32 : 0 <= 32 <= INT_MAX.
Proof. unfold INT_MAX. lia. Qed.

Lemma read_csv_correct_witness :
  0 <= 32 <= INT_MAX /\
  forallb valid_row
    [(("Norway", "Oslo"), None); (("Sweden", "Stockholm"), Some "Europe,x")]%string
    = true /\
  read_csv (Some ("Norway,Oslo" ++ nl ++ "Sweden,Stockholm,Europe,x")%string)
           "countries.csv" 32 = Ok countries.
Proof.
  assert (Hmax : 0 <= 32 <= INT_MAX) by (unfold INT_MAX; lia).
  split; [exact Hmax|]. split; [reflexivity|].
  apply (proj2 (read_csv_correct 32 Hmax
                  [(("Norway", "Oslo"), None);
                   (("Sweden", "Stockholm"), Some "Europe,x")]%string
                  false "countries.csv" eq_refl)).
  intros E. apply Exists_exists in E. destruct E as [kv [Hin Hbig]].
  destruct Hin as [<-|[<-|[]]]; unfold oversized in Hbig; simpl in Hbig; lia.
Defined.

Lemma pow_small_degree_witness :
  0 <= 1 /\ @pow he257 (tile [3; 5]) 0 = Some (tile [3; 5]).
Proof.
  split; [lia|].
  apply (proj2 (@pow_small_degree he257 (tile [3; 5]) 0)). lia.
Defined.


Lemma lookup_empty_database_witness :
  @isModularArithmetic he257 = true /\
  file_lines "" = [] /\
  @run he257 tape0 (Some ""%string) "countries.csv" "Norway" "" 257 = Undefined.
Proof.
  split; [reflexivity|]. split; [reflexivity|].
  apply (proj2 (@lookup_empty_database he257 tape0)); reflexivity.
Defined.

Lemma aggregate_adds_matches_witness :
  Z.prime 257 /\ 128 <= 257 /\ 257 <= INT_MAX /\
  32 = 2 ^ Z.of_nat 5 /\ 32 <= INT_MAX /\
  keys_well_formed 32 twins = true /\ well_formed 32 "Rome" = true /\
  twins <> [] /\
  exists mask value,
    @search he257 tape0 7 (@encodeEncrypt he257 (tape0 6) (stringToAscii "Rome"))
            (@encrypt_db he257 tape0 0 twins) 257 = Some mask /\
    @aggregate he257 mask = Ok value /\
    forall i, (i < Z.to_nat 32)%nat ->
      nth i (@decryptDecodeInt he257 value) 0 =
      sumZ (map (fun kv => nth i (encode 257 (Z.to_nat 32) (stringToAscii (snd kv))) 0)
                (filter (fun kv => String.eqb (fst kv) "Rome") twins))
      mod 257.
Proof.
  split; [exact prime_257|]. split; [exact codes_257|]. split; [exact int_257|].
  split; [exact slots_32|]. split; [exact int_32|].
  split; [reflexivity|]. split; [reflexivity|]. split; [discriminate|].
  apply (@aggregate_adds_matches he257 5%nat prime_257 codes_257 int_257
           slots_32 int_32 tape0 0%nat 6%nat twins "Rome" eq_refl eq_refl).
  discriminate.
Defined.

Lemma lookup_order_irrelevant_witness :
  Z.prime 257 /\ 128 <= 257 /\ 257 <= INT_MAX /\
  32 = 2 ^ Z.of_nat 5 /\ 32 <= INT_MAX /\
  Permutation countries (rev countries) /\
  keys_well_formed 32 countries = true /\ well_formed 32 "Sweden" = true /\
  @lookup he257 tape0 4 (@encrypt_db he257 tape0 0 countries) "Sweden" 257 =
  @lookup he257 tape1 9 (@encrypt_db he257 tape1 3 (rev countries)) "Sweden" 257.
Proof.
  split; [exact prime_257|]. split; [exact codes_257|]. split; [exact int_257|].
  split; [exact slots_32|]. split; [exact int_32|].
  split; [apply Permutation_rev|]. split; [reflexivity|]. split; [reflexivity|].
  apply (@lookup_order_irrelevant he257 5%nat prime_257 codes_257 int_257
           slots_32 int_32 tape0 tape1 0%nat 4%nat 3%nat 9%nat
           countries (rev countries) "Sweden"
           (Permutation_rev countries) eq_refl eq_refl).
Defined.

Lemma read_csv_csv_file_witness :
  0 <= 32 <= INT_MAX /\
  forallb (storable 32) countries = true /\
  read_csv (Some (csv_file countries)) "countries.csv" 32 = Ok countries.
Proof.
  split; [exact int_bound_32|]. split; [reflexivity|].
  apply (read_csv_csv_file 32 int_bound_32 countries "countries.csv" eq_refl).
Defined.

Lemma read_row_ignores_later_fields_witness :
  0 <= 32 <= INT_MAX /\
  free_of "," "Norway" = true /\ free_of "," "" = true /\
  Z.of_nat (String.length "Norway") <= 32 /\ Z.of_nat (String.length "") <= 32 /\
  read_row ("Norway" ++ "," ++ "" ++ "," ++ "Oslo,Europe") 32 =
    Ok ("Norway"%string, ""%string).
Proof.
  split; [exact int_bound_32|]. split; [reflexivity|]. split; [reflexivity|].
  split; [simpl; lia|]. split; [simpl; lia|].
  apply (read_row_ignores_later_fields 32 int_bound_32 "Norway" "" "Oslo,Europe");
    [reflexivity | reflexivity | simpl; lia | simpl; lia].
Defined.

Definition long_capital : string := "Llanfairpwllgwyngyllgogerychwyrndrobwll".

Lemma read_csv_first_error_witness :
  0 <= 32 <= INT_MAX /\
  read_csv (Some ("Norway,Oslo" ++ nl ++ "Wales," ++ long_capital ++ nl
                  ++ "no comma here")%string) "countries.csv" 32 =
    Throw ("Capital name " ++ long_capital ++ " too long").
Proof.
  split; [exact int_bound_32|].
  apply (proj2 (read_csv_first_error 32 int_bound_32
                  ("Norway,Oslo" ++ nl ++ "Wales," ++ long_capital ++ nl
                   ++ "no comma here")%string
                  "countries.csv" ("Wales," ++ long_capital)%string
                  ["Norway,Oslo"%string] ["no comma here"%string]
                  [("Norway", "Oslo")]%string "Wales" [long_capital]
                  eq_refl eq_refl eq_refl)
           long_capital [] eq_refl);
    [simpl; lia | unfold long_capital; simpl; lia].
Defined.

Lemma parse_args_left_to_right_witness :
  parse_args ["--country"; "Norway"; "--debug"]%string (defaults "data") =
    Ok (Go (set_debug (set_countryName (defaults "data") "Norway"))) /\
  parse_args (["--country"; "Norway"; "--debug"]%string
                ++ ["--country"; "--help"]%string)%list
             (defaults "data") =
    Ok (Go (set_countryName
              (set_debug (set_countryName (defaults "data") "Norway")) "--help")).
Proof.
  split; [reflexivity|].
  apply (proj1 (proj2 (parse_args_left_to_right
                         ["--country"; "Norway"; "--debug"]%string []
                         (defaults "data") _ eq_refl))).
Defined.

Lemma main_help_witness :
  parse_args ["--debug"]%string (defaults "data") =
    Ok (Go (set_debug (defaults "data"))) /\
  main_argv init32 tapes no_files "data" ""
            ("lookup"%string :: ["--debug"%string]
               ++ "--help"%string :: ["--country"%string])%list =
    Ok (UsagePrinted usage).
Proof.
  split; [reflexivity|].
  apply (main_help init32 tapes no_files "data" "" "lookup"
           ["--debug"]%string ["--country"]%string _ eq_refl).
Defined.

Lemma main_unsupported_argument_witness :
  parse_args ["--debug"]%string (defaults "data") =
    Ok (Go (set_debug (defaults "data"))) /\
  known "-country" = false /\
  main_argv init32 tapes no_files "data" ""
            ("lookup"%string :: ["--debug"%string]
               ++ "-country"%string :: ["Norway"%string])%list =
    Throw "Unsupported argument: -country".
Proof.
  split; [reflexivity|]. split; [reflexivity|].
  apply (main_unsupported_argument init32 tapes no_files "data" "" "lookup"
           ["--debug"]%string ["Norway"]%string _ "-country" eq_refl eq_refl).
Defined.

Lemma main_missing_value_witness :
  parse_args ["--debug"]%string (defaults "data") =
    Ok (Go (set_debug (defaults "data"))) /\
  takes_value "--country" = true /\
  main_argv init32 tapes no_files "data" ""
            ("lookup"%string :: ["--debug"%string] ++ ["--country"%string])%list =
    Undefined.
Proof.
  split; [reflexivity|]. split; [reflexivity|].
  apply (main_missing_value init32 tapes no_files "data" "" "lookup"
           ["--debug"]%string _ "--country" eq_refl eq_refl).
Defined.

Lemma atoi_decimal_witness :
  - 2147483648 <= 257 <= INT_MAX /\ no_digit_ahead " is prime" = true /\
  atoi "257 is prime" = Ok 257.
Proof.
  assert (H : - 2147483648 <= 257 <= INT_MAX) by (unfold INT_MAX; lia).
  split; [exact H|]. split; [reflexivity|].
  apply (proj1 (atoi_decimal 257 " is prime" (defaults "data") H eq_refl)).
Defined.

Lemma main_modulus_not_a_number_witness :
  parse_args ["--debug"]%string (defaults "data") =
    Ok (Go (set_debug (defaults "data"))) /\
  not_a_number "two hundred" = true /\
  main_argv init32 tapes no_files "data" ""
            ("lookup"%string :: ["--debug"%string]
               ++ ["--plaintext_modulus"; "two hundred"]%string)%list =
    Throw "always_assert(plaintextModulus >= 127)".
Proof.
  split; [reflexivity|]. split; [reflexivity|].
  apply (proj2 (main_modulus_not_a_number init32 tapes no_files "data" "" "lookup"
                  ["--debug"]%string _ "two hundred" eq_refl eq_refl)).
Defined.

End MoreRuns.
